(** * translation_chunker: token-budgeted text chunking

    A shallow embedding of the Python package [src/translation_chunker]
    ([models.py], [simple_token_manager.py], [simple_boundary_optimizer.py],
    [text_chunker.py]) and the properties of its chunking engine.

    Conventions of the embedding:
    - a Python [str] is a list of Unicode code points ([N]);
    - a Python [int] is a [Z];
    - a Python [float] is a binary64 primitive float;
    - [raise ValueError(msg)] is the outcome [Raised (ValueError msg)];
    - a [while] loop is a fixpoint on a fuel counter and yields [None] when
      the fuel runs out, so that [Some _] means that the Python call
      finished (returned or raised). *)

From Stdlib Require Import String Ascii.
From Stdlib Require Import ZArith List Lia Bool.
From Stdlib Require Import Sorting.Sorted Sorting.Permutation.
From Stdlib Require Import Floats.PrimFloat.
Import ListNotations.

Set Implicit Arguments.
Set Warnings "-inexact-float".
Local Open Scope Z_scope.

(** ** Python strings *)

Module PyStr.

Definition char := N.
Definition str := list char.

Definition of_string (s : string) : str :=
  map N_of_ascii (list_ascii_of_string s).

(** Code points of the characters the engine names explicitly. *)
Definition LF : char := 10%N.
Definition SPACE : char := 32%N.
Definition DOT : char := 46%N.
Definition BANG : char := 33%N.
Definition QUESTION : char := 63%N.

(** [str.isspace] on one character, which is also the class [\s] of a
    [str] pattern and the set removed by [str.strip()]. *)
Definition isspace (c : char) : bool :=
  ((9 <=? c) && (c <=? 13) || (28 <=? c) && (c <=? 32)
   || (c =? 133) || (c =? 160) || (c =? 5760)
   || (8192 <=? c) && (c <=? 8202)
   || (c =? 8232) || (c =? 8233) || (c =? 8239) || (c =? 8287)
   || (c =? 12288))%N.

(** The character class [[.!?]]. *)
Definition is_sentence_punct (c : char) : bool :=
  ((c =? DOT) || (c =? BANG) || (c =? QUESTION))%N.

Fixpoint lstrip (s : str) : str :=
  match s with
  | c :: s' => if isspace c then lstrip s' else s
  | [] => []
  end.

Definition rstrip (s : str) : str := rev (lstrip (rev s)).

(** [s.strip()] *)
Definition strip (s : str) : str := lstrip (rstrip s).

(** Truth value of a string: [not s] is [is_empty s]. *)
Definition is_empty (s : str) : bool :=
  match s with [] => true | _ => false end.

(** [len(s)] *)
Definition len (s : str) : Z := Z.of_nat (length s).

(** Slice indices as Python normalises them: a negative index counts from
    the end, and the result is clamped to [0, len]. *)
Definition norm_index (n i : Z) : Z :=
  if i <? 0 then Z.max 0 (n + i) else Z.min n i.

(** [s[i:j]] *)
Definition slice (s : str) (i j : Z) : str :=
  let a := norm_index (len s) i in
  let b := norm_index (len s) j in
  firstn (Z.to_nat (b - a)) (skipn (Z.to_nat a) s).

(** [s[:j]] *)
Definition slice_to (s : str) (j : Z) : str :=
  firstn (Z.to_nat (norm_index (len s) j)) s.

(** [s[i:]] *)
Definition slice_from (s : str) (i : Z) : str :=
  skipn (Z.to_nat (norm_index (len s) i)) s.

(** [sub in s] for a two-character [sub]. *)
Fixpoint contains2 (a b : char) (s : str) : bool :=
  match s with
  | x :: ((y :: _) as s') => ((x =? a) && (y =? b))%N || contains2 a b s'
  | _ => false
  end.

(** [c in s] for a single character. *)
Definition contains1 (c : char) (s : str) : bool :=
  existsb (fun x => (x =? c)%N) s.

End PyStr.
Import PyStr.

(** ** Regular expressions of the engine

    The engine uses four patterns, none of which matches the empty string.
    A pattern is embedded as the function giving the length of its (greedy)
    match at the head of a string. *)

Module Re.

Definition matcher := str -> option nat.

Fixpoint span_while (p : char -> bool) (s : str) : nat :=
  match s with
  | c :: s' => if p c then S (span_while p s') else O
  | [] => O
  end.

(** [\n\n+] *)
Definition paragraph_break : matcher := fun s =>
  match s with
  | a :: b :: s' =>
      if ((a =? LF) && (b =? LF))%N
      then Some (2 + span_while (fun c => (c =? LF)%N) s')%nat
      else None
  | _ => None
  end.

(** [[.!?]\s+] *)
Definition sentence_end : matcher := fun s =>
  match s with
  | a :: b :: s' =>
      if is_sentence_punct a && isspace b
      then Some (2 + span_while isspace s')%nat
      else None
  | _ => None
  end.

(** [[.!?]\s] *)
Definition sentence_end1 : matcher := fun s =>
  match s with
  | a :: b :: _ =>
      if is_sentence_punct a && isspace b then Some 2%nat else None
  | _ => None
  end.

(** [\n] *)
Definition line_break : matcher := fun s =>
  match s with
  | a :: _ => if (a =? LF)%N then Some 1%nat else None
  | [] => None
  end.

(** Left-to-right scan for the non-overlapping matches: [pos] is the offset
    of the head of [s] in the scanned string, [skip] the number of
    characters still covered by the last match. *)
Fixpoint scan (m : matcher) (s : str) (pos skip : nat) : list (nat * nat) :=
  match s with
  | [] => []
  | _ :: s' =>
      match skip with
      | S k => scan m s' (S pos) k
      | O =>
          match m s with
          | Some l => (pos, pos + l)%nat :: scan m s' (S pos) (pred l)
          | None => scan m s' (S pos) O
          end
      end
  end.

(** [re.finditer(pattern, s)], as the list of [(match.start(), match.end())]. *)
Definition finditer (m : matcher) (s : str) : list (nat * nat) :=
  scan m s O O.

(** [re.search(pattern, s)] as a truth value. *)
Definition search (m : matcher) (s : str) : bool :=
  match finditer m s with [] => false | _ => true end.

(** The pieces of [s] between the matches [spans], from offset [from]. *)
Fixpoint pieces (s : str) (from : nat) (spans : list (nat * nat)) : list str :=
  match spans with
  | [] => [skipn from s]
  | (a, b) :: rest => firstn (a - from) (skipn from s) :: pieces s b rest
  end.

(** [re.split(pattern, s)] for a pattern without groups. *)
Definition split (m : matcher) (s : str) : list str :=
  pieces s O (finditer m s).

End Re.

(** ** models.py *)

Inductive exn := ValueError (msg : string).

Inductive outcome (A : Type) :=
| Returned (a : A)
| Raised (e : exn).
Arguments Returned {A} a.
Arguments Raised {A} e.

Inductive ChunkType := FIRST | MIDDLE | FINAL.

(** The dictionary built by [get_boundary_info]; the two context entries
    are absent for an edge position. *)
Record BoundaryInfo := {
  bi_position : Z;
  bi_type : string;
  bi_score : float;
  bi_before_context : option str;
  bi_after_context : option str
}.

Record TextChunk := {
  chunk_id : Z;
  chunk_type : ChunkType;
  text : str;
  token_count : Z;
  start_position : Z;
  end_position : Z;
  overlap_with_previous : Z;
  boundary_info : BoundaryInfo;
  boundary_score : float
}.

(** [TextChunk(...)]: the dataclass constructor followed by [__post_init__]. *)
Definition new_TextChunk (c : TextChunk) : outcome TextChunk :=
  if chunk_id c <? 0 then
    Raised (ValueError "chunk_id must be non-negative")
  else if is_empty (strip (text c)) then
    Raised (ValueError "text cannot be empty")
  else if token_count c <=? 0 then
    Raised (ValueError "token_count must be positive")
  else if (ltb (boundary_score c) 0 || ltb 1 (boundary_score c))%bool then
    Raised (ValueError "boundary_score must be between 0 and 1")
  else Returned c.

Definition ChunkType_eqb (a b : ChunkType) : bool :=
  match a, b with
  | FIRST, FIRST | MIDDLE, MIDDLE | FINAL, FINAL => true
  | _, _ => false
  end.

(** The issues reported by [validate_chunks], in place of their messages. *)
Inductive issue :=
| ExceedsTokenLimit (i : nat) (token_count max_chunk_tokens : Z)
| FirstNotFIRST (got : ChunkType)
| LastNotFINAL (got : ChunkType)
| EmptyText (i : nat).

Record ChunkingConfig := {
  max_chunk_tokens : Z;
  overlap_tokens : Z;
  tokenizer_name : string
}.

(** [ChunkingConfig(...)]: the dataclass constructor followed by
    [__post_init__]. *)
Definition new_ChunkingConfig (max_chunk_tokens overlap_tokens : Z)
    (tokenizer_name : string) : outcome ChunkingConfig :=
  if max_chunk_tokens <=? 0 then
    Raised (ValueError "max_chunk_tokens must be positive")
  else if overlap_tokens <? 0 then
    Raised (ValueError "overlap_tokens must be non-negative")
  else if overlap_tokens >=? max_chunk_tokens then
    Raised (ValueError "overlap_tokens must be less than max_chunk_tokens")
  else Returned {| max_chunk_tokens := max_chunk_tokens;
                   overlap_tokens := overlap_tokens;
                   tokenizer_name := tokenizer_name |}.

Local Open Scope float_scope.
Local Open Scope Z_scope.

(** ** The engine, over the tokenizer bound at construction

    [encode] stands for [tiktoken.get_encoding(config.tokenizer_name).encode],
    an external capability: the engine only takes the length of its result. *)

Section Engine.

Variable encode : str -> list Z.
Variable config : ChunkingConfig.

(** *** simple_token_manager.py *)

Definition count_tokens (text : str) : Z :=
  if is_empty text then 0 else Z.of_nat (length (encode text)).

(** The [while left <= right] loop of [find_token_boundary]. *)
Fixpoint token_boundary_loop (fuel : nat) (text : str)
    (target_tokens left right best_pos : Z) {struct fuel} : option Z :=
  if left <=? right then
    match fuel with
    | O => None
    | S fuel' =>
        let mid := (left + right) / 2 in
        let chunk_tokens := count_tokens (slice_to text mid) in
        if chunk_tokens <=? target_tokens
        then token_boundary_loop fuel' text target_tokens (mid + 1) right mid
        else token_boundary_loop fuel' text target_tokens left (mid - 1) best_pos
    end
  else Some best_pos.

Definition find_token_boundary (text : str) (target_tokens : Z) : option Z :=
  if is_empty text then Some 0
  else
    let total_tokens := count_tokens text in
    if total_tokens <=? target_tokens then Some (len text)
    else token_boundary_loop (S (length text)) text target_tokens 0 (len text) 0.

Definition get_effective_chunk_size : Z :=
  max_chunk_tokens config - overlap_tokens config.

(** *** simple_boundary_optimizer.py *)

Definition _is_within_token_limit (text : str) (target_tokens tolerance : Z)
    : bool :=
  let tokens := count_tokens text in
  tokens <=? target_tokens + tolerance.

(** Body of the three [for match in re.finditer(...)] loops of
    [find_optimal_boundary], on the pair [(best_pos, best_score)]; the
    default [tolerance=50] is written out. *)
Definition consider_match (text : str) (target_tokens start_pos : Z)
    (score : float) (best : Z * float) (m : nat * nat) : Z * float :=
  let pos := start_pos + Z.of_nat (snd m) in
  if _is_within_token_limit (slice_to text pos) target_tokens 50 then
    if ltb (snd best) score then (pos, score) else best
  else best.

Definition find_optimal_boundary (text : str) (target_tokens : Z)
    : option (Z * float) :=
  if is_empty text then Some (0, 0.0%float)
  else
    let total_tokens := count_tokens text in
    if total_tokens <=? target_tokens then Some (len text, 1.0%float)
    else
      match find_token_boundary text target_tokens with
      | None => None
      | Some approx_pos =>
          let search_window := Z.min 500 (len text / 10) in
          let start_pos := Z.max 0 (approx_pos - search_window) in
          let end_pos := Z.min (len text) (approx_pos + search_window) in
          let window := slice text start_pos end_pos in
          let best := (approx_pos, 0.5%float) in
          let best :=
            fold_left (consider_match text target_tokens start_pos 1.0)
                      (Re.finditer Re.paragraph_break window) best in
          let best :=
            if ltb (snd best) 0.9
            then fold_left (consider_match text target_tokens start_pos 0.8)
                           (Re.finditer Re.sentence_end window) best
            else best in
          let best :=
            if ltb (snd best) 0.7
            then fold_left (consider_match text target_tokens start_pos 0.6)
                           (Re.finditer Re.line_break window) best
            else best in
          Some best
      end.

Definition create_overlap (text : str) (overlap_tokens : Z) : option str :=
  if is_empty text || (overlap_tokens <=? 0) then Some []
  else
    match find_token_boundary text overlap_tokens with
    | None => None
    | Some overlap_pos =>
        if overlap_pos >=? len text then Some text
        else
          let overlap_text :=
            if overlap_pos >? 0 then slice_from text (- overlap_pos) else [] in
          let sentences := Re.split Re.sentence_end overlap_text in
          if Z.of_nat (length sentences) >? 1 then
            let last_sentence := last sentences [] in
            Some (if is_empty last_sentence then overlap_text
                  else last_sentence)
          else Some overlap_text
    end.

Definition get_boundary_info (text : str) (position : Z) : BoundaryInfo :=
  if (position <=? 0) || (position >=? len text) then
    {| bi_position := position; bi_type := "edge"; bi_score := 0.0;
       bi_before_context := None; bi_after_context := None |}
  else
    let before := slice text (Z.max 0 (position - 5)) position in
    let after := slice text position (Z.min (len text) (position + 5)) in
    let context := before ++ after in
    let '(boundary_type, score) :=
      if contains2 LF LF context then ("paragraph"%string, 1.0%float)
      else if Re.search Re.sentence_end1 context then ("sentence"%string, 0.8%float)
      else if contains1 LF context then ("line"%string, 0.6%float)
      else if contains1 SPACE context then ("word"%string, 0.4%float)
      else ("character"%string, 0.1%float) in
    {| bi_position := position; bi_type := boundary_type; bi_score := score;
       bi_before_context := Some before; bi_after_context := Some after |}.

(** *** text_chunker.py *)

(** The [while remaining_text.strip()] loop of [chunk_text], on the local
    variables [chunks], [remaining_text], [chunk_id], [current_position]. *)
Fixpoint chunk_loop (fuel : nat) (chunks : list TextChunk)
    (remaining_text : str) (chunk_id current_position : Z) {struct fuel}
    : option (outcome (list TextChunk)) :=
  if is_empty (strip remaining_text) then Some (Returned chunks)
  else
    match fuel with
    | O => None
    | S fuel' =>
        let target_tokens := get_effective_chunk_size in
        match find_optimal_boundary remaining_text target_tokens with
        | None => None
        | Some (boundary_pos, boundary_score) =>
            let chunk_text := strip (slice_to remaining_text boundary_pos) in
            if is_empty chunk_text then Some (Returned chunks)
            else
              match
                (if (chunk_id >? 0) && (overlap_tokens config >? 0)
                 then option_map len
                        (create_overlap chunk_text (overlap_tokens config))
                 else Some 0)
              with
              | None => None
              | Some overlap_chars =>
                  let remaining_after :=
                    strip (slice_from remaining_text boundary_pos) in
                  let chunk_type :=
                    if chunk_id =? 0 then FIRST
                    else if is_empty remaining_after then FINAL
                    else MIDDLE in
                  match
                    new_TextChunk
                      {| chunk_id := chunk_id;
                         chunk_type := chunk_type;
                         text := chunk_text;
                         token_count := count_tokens chunk_text;
                         start_position := current_position;
                         end_position := current_position + len chunk_text;
                         overlap_with_previous := overlap_chars;
                         boundary_info :=
                           get_boundary_info remaining_text boundary_pos;
                         boundary_score := boundary_score |}
                  with
                  | Raised e => Some (Raised e)
                  | Returned chunk =>
                      let chunks := chunks ++ [chunk] in
                      let remaining_text :=
                        strip (slice_from remaining_text boundary_pos) in
                      let current_position := current_position + boundary_pos in
                      let chunk_id := chunk_id + 1 in
                      if boundary_pos =? 0 then Some (Returned chunks)
                      else chunk_loop fuel' chunks remaining_text chunk_id
                                      current_position
                  end
              end
        end
    end.

Definition chunk_text (text : str) : option (outcome (list TextChunk)) :=
  if is_empty (strip text) then
    Some (Raised (ValueError "Input text cannot be empty"))
  else chunk_loop (length text) [] text 0 0.

(** [chunk_text_iterator] yields the elements of [chunk_text(text)] in
    order; the list stands for the sequence obtained by exhausting it. *)
Definition chunk_text_iterator (text : str)
    : option (outcome (list TextChunk)) :=
  chunk_text text.

(** [validate_chunks]: the checks of the loop body on chunk [i] of [n], in
    order. *)
Definition validate_chunk (n i : nat) (chunk : TextChunk) : list issue :=
  (if token_count chunk >? max_chunk_tokens config
   then [ExceedsTokenLimit i (token_count chunk) (max_chunk_tokens config)]
   else [])
  ++ (if Nat.eqb i 0 && negb (ChunkType_eqb (chunk_type chunk) FIRST)
      then [FirstNotFIRST (chunk_type chunk)] else [])
  ++ (if Nat.eqb i (n - 1) && negb (ChunkType_eqb (chunk_type chunk) FINAL)
         && Nat.ltb 1 n
      then [LastNotFINAL (chunk_type chunk)] else [])
  ++ (if is_empty (strip (text chunk)) then [EmptyText i] else []).

Definition validate_chunks (chunks : list TextChunk) : list issue :=
  concat (map (fun '(i, chunk) => validate_chunk (length chunks) i chunk)
              (combine (seq 0 (length chunks)) chunks)).

End Engine.

(** The statements of [main.py] in sequence:
    [config = ChunkingConfig(...)], [chunker = TextChunker(config)],
    [chunker.chunk_text(text)]; an error of the first ends the run. *)
Definition chunk_with (encode : str -> list Z)
    (max_chunk_tokens overlap_tokens : Z) (tokenizer_name : string)
    (text : str) : option (outcome (list TextChunk)) :=
  match new_ChunkingConfig max_chunk_tokens overlap_tokens tokenizer_name with
  | Raised e => Some (Raised e)
  | Returned config => chunk_text encode config text
  end.

(** ** Model tokenizers used to run the engine on concrete inputs *)

(** One token per character. *)
Definition char_tokenizer (s : str) : list Z := map Z.of_N s.

(** One token per byte of the UTF-8 encoding. *)
Definition utf8_length (c : char) : nat :=
  if (c <? 128)%N then 1 else if (c <? 2048)%N then 2
  else if (c <? 65536)%N then 3 else 4.

Definition utf8_tokenizer (s : str) : list Z :=
  flat_map (fun c => repeat (Z.of_N c) (utf8_length c)) s.

Definition cfg (max_chunk_tokens overlap_tokens : Z) : ChunkingConfig :=
  {| max_chunk_tokens := max_chunk_tokens;
     overlap_tokens := overlap_tokens;
     tokenizer_name := "cl100k_base" |}.

(** * Vocabulary of the properties *)

(** The error of [chunk_text] on a blank input. *)
Definition input_error : exn := ValueError "Input text cannot be empty".

(** The tokenizer precondition of the binary search: the token count of a
    prefix does not decrease when the prefix grows. *)
Definition prefix_monotone (encode : str -> list Z) (text : str) : Prop :=
  forall i j, 0 <= i <= j -> j <= len text ->
    count_tokens encode (slice_to text i)
      <= count_tokens encode (slice_to text j).

(** A prefix length [p] is within the budget. *)
Definition fits (encode : str -> list Z) (text : str) (target_tokens p : Z)
    : Prop :=
  count_tokens encode (slice_to text p) <= target_tokens.

(** A tokenizer that gives every non-empty string at least one token, as a
    byte-level BPE encoding does. *)
Definition nonempty_tokens (encode : str -> list Z) : Prop :=
  forall s, s <> [] -> encode s <> [].

(** The range check of [TextChunk.__post_init__] on a score. *)
Definition score_in_range (f : float) : bool :=
  negb (ltb f 0 || ltb 1 f).

(** What the three scanning loops keep of [(best_pos, best_score)]. *)
Definition candidate_ok (best : Z * float) : Prop :=
  0 <= fst best /\ score_in_range (snd best) = true.

(** Chunks emitted after the first one: [MIDDLE] chunks, closed or not by
    one [FINAL] chunk. *)
Inductive tail_kinds : list TextChunk -> Prop :=
| tail_nil : tail_kinds []
| tail_final : forall c, chunk_type c = FINAL -> tail_kinds [c]
| tail_middle : forall c l,
    chunk_type c = MIDDLE -> tail_kinds l -> tail_kinds (c :: l).

(** Chunks emitted by the loop when entered with counter [chunk_id]. *)
Definition kinds_from (chunk_id : Z) (more : list TextChunk) : Prop :=
  if chunk_id =? 0 then
    more = [] \/
    exists c rest, more = c :: rest /\ chunk_type c = FIRST /\ tail_kinds rest
  else tail_kinds more.

(** Number of chunks of a kind in a sequence. *)
Definition count_kind (k : ChunkType) (chunks : list TextChunk) : nat :=
  length (filter (fun c => ChunkType_eqb (chunk_type c) k) chunks).

(** The kinds of a chunk sequence as the specification words them: exactly
    one [FIRST], which is the first chunk; with more than one chunk,
    exactly one [FINAL], which is the last chunk, and all others [MIDDLE];
    a single chunk is [FIRST]. *)
Definition kinds_as_specified (chunks : list TextChunk) : Prop :=
  count_kind FIRST chunks = 1%nat
  /\ (exists c, hd_error chunks = Some c /\ chunk_type c = FIRST)
  /\ ((1 < length chunks)%nat ->
        count_kind FINAL chunks = 1%nat
        /\ (exists c, nth_error chunks (length chunks - 1) = Some c
                      /\ chunk_type c = FINAL)
        /\ count_kind MIDDLE chunks = (length chunks - 2)%nat)
  /\ (length chunks = 1%nat ->
        exists c, chunks = [c] /\ chunk_type c = FIRST).

(** The character of [text] at offset [i], if any. *)
Definition char_at (text : str) (i : Z) : option char :=
  if i <? 0 then None else nth_error text (Z.to_nat i).

(** Offsets of the context of [position]: five characters on each side. *)
Definition in_context (position i : Z) : Prop :=
  position - 5 <= i < position + 5.

Definition paragraph_break_near (text : str) (position : Z) : Prop :=
  exists i, in_context position i /\ in_context position (i + 1)
    /\ char_at text i = Some LF /\ char_at text (i + 1) = Some LF.

Definition sentence_end_near (text : str) (position : Z) : Prop :=
  exists i p w, in_context position i /\ in_context position (i + 1)
    /\ char_at text i = Some p /\ char_at text (i + 1) = Some w
    /\ is_sentence_punct p = true /\ isspace w = true.

Definition line_break_near (text : str) (position : Z) : Prop :=
  exists i, in_context position i /\ char_at text i = Some LF.

Definition space_near (text : str) (position : Z) : Prop :=
  exists i, in_context position i /\ char_at text i = Some SPACE.

(** The string examined by [get_boundary_info] at an inner position:
    [before + after]. *)
Definition boundary_context (text : str) (position : Z) : str :=
  slice text (Z.max 0 (position - 5)) position
  ++ slice text position (Z.min (len text) (position + 5)).

(** * Further operations of the package *)

(** [sep.join(parts)] *)
Fixpoint join (sep : str) (parts : list str) : str :=
  match parts with
  | [] => []
  | [s] => s
  | s :: rest => s ++ sep ++ join sep rest
  end.

(** [sorted(chunks, key=lambda c: c.chunk_id)]: the stable sort, written
    as an insertion sort that keeps chunks of equal key in their order. *)
Fixpoint insert_by_id (c : TextChunk) (l : list TextChunk) : list TextChunk :=
  match l with
  | [] => [c]
  | d :: l' =>
      if chunk_id c <=? chunk_id d then c :: l else d :: insert_by_id c l'
  end.

Definition sorted_by_id (chunks : list TextChunk) : list TextChunk :=
  fold_right insert_by_id [] chunks.

(** [TextChunker.combine_chunks] *)
Definition combine_chunks (chunks : list TextChunk) : str :=
  match chunks with
  | [] => []
  | _ =>
      let sorted_chunks := sorted_by_id chunks in
      join [SPACE] (map text sorted_chunks)
  end.

(** [TokenManager.calculate_overlap_tokens] *)
Definition calculate_overlap_tokens (encode : str -> list Z)
    (text : str) (overlap_chars : Z) : Z :=
  if (overlap_chars <=? 0) || (overlap_chars >=? len text) then 0
  else count_tokens encode (slice_from text (- overlap_chars)).

(** * The loop of [chunk_text] as a relation *)

Section Run.

Variable encode : str -> list Z.
Variable config : ChunkingConfig.

(** The [overlap_chars] of an iteration. *)
Definition loop_overlap (chunk_id : Z) (chunk_text : str) : option Z :=
  if (chunk_id >? 0) && (overlap_tokens config >? 0)
  then option_map len (create_overlap encode chunk_text (overlap_tokens config))
  else Some 0.

(** The [TextChunk(...)] of an iteration. *)
Definition loop_chunk (remaining_text : str)
    (chunk_id current_position boundary_pos : Z) (boundary_score : float)
    (overlap_chars : Z) : TextChunk :=
  let chunk_text := strip (slice_to remaining_text boundary_pos) in
  let remaining_after := strip (slice_from remaining_text boundary_pos) in
  {| chunk_id := chunk_id;
     chunk_type :=
       if chunk_id =? 0 then FIRST
       else if is_empty remaining_after then FINAL
       else MIDDLE;
     text := chunk_text;
     token_count := count_tokens encode chunk_text;
     start_position := current_position;
     end_position := current_position + len chunk_text;
     overlap_with_previous := overlap_chars;
     boundary_info := get_boundary_info remaining_text boundary_pos;
     boundary_score := boundary_score |}.

(** [run remaining chunk_id position chunks leftover]: entered with the
    given locals, the loop appends [chunks], one iteration each, and is
    left with [leftover] as remaining text. *)
Inductive run : str -> Z -> Z -> list TextChunk -> str -> Prop :=
| run_stop : forall remaining id pos, run remaining id pos [] remaining
| run_step : forall remaining id pos bp bs ov more leftover,
    is_empty (strip remaining) = false ->
    find_optimal_boundary encode remaining (get_effective_chunk_size config)
      = Some (bp, bs) ->
    is_empty (strip (slice_to remaining bp)) = false ->
    loop_overlap id (strip (slice_to remaining bp)) = Some ov ->
    new_TextChunk (loop_chunk remaining id pos bp bs ov)
      = Returned (loop_chunk remaining id pos bp bs ov) ->
    run (strip (slice_from remaining bp)) (id + 1) (pos + bp) more leftover ->
    run remaining id pos (loop_chunk remaining id pos bp bs ov :: more)
        leftover.

(** The two ways the loop ends without an error: nothing but whitespace
    remains, or the next extraction is empty. *)
Definition stops (leftover : str) : Prop :=
  is_empty (strip leftover) = true
  \/ exists bp bs,
       find_optimal_boundary encode leftover (get_effective_chunk_size config)
         = Some (bp, bs)
       /\ is_empty (strip (slice_to leftover bp)) = true.

End Run.

(** [interleaved parts rest s]: [s] is whitespace, the first part,
    whitespace, the second part, and so on, followed by [rest]. *)
Inductive interleaved : list str -> str -> str -> Prop :=
| interleaved_nil : forall rest, interleaved [] rest rest
| interleaved_cons : forall ws c cs rest s,
    forallb isspace ws = true -> interleaved cs rest s ->
    interleaved (c :: cs) rest (ws ++ c ++ s).

(** A tokenizer for which trimming a string does not add tokens. *)
Definition trim_monotone (encode : str -> list Z) : Prop :=
  forall s, count_tokens encode (strip s) <= count_tokens encode s.

(** The characters before [pos] close a paragraph break, a sentence end
    or a line break. *)
Definition ends_paragraph (text : str) (pos : Z) : Prop :=
  char_at text (pos - 2) = Some LF /\ char_at text (pos - 1) = Some LF.

Definition ends_sentence (text : str) (pos : Z) : Prop :=
  exists q p,
    0 <= q /\ q + 1 < pos
    /\ char_at text q = Some p /\ is_sentence_punct p = true
    /\ forall j, q < j < pos ->
         exists w, char_at text j = Some w /\ isspace w = true.

Definition ends_line (text : str) (pos : Z) : Prop :=
  char_at text (pos - 1) = Some LF.

(** The test of [_is_within_token_limit] on the prefix that ends at
    [pos], with the default tolerance. *)
Definition within_tolerance (encode : str -> list Z) (text : str)
    (target_tokens pos : Z) : Prop :=
  count_tokens encode (slice_to text pos) <= target_tokens + 50.

(** Orders on chunks by identifier. *)
Definition id_le (a b : TextChunk) : Prop := chunk_id a <= chunk_id b.
Definition id_lt (a b : TextChunk) : Prop := chunk_id a < chunk_id b.

(** The characters of a string that are not whitespace, in order. *)
Definition non_space (s : str) : str :=
  filter (fun c => negb (isspace c)) s.

(** The chunks of an outcome, none if it is not a returned list. *)
Definition returned_chunks (r : option (outcome (list TextChunk)))
    : list TextChunk :=
  match r with
  | Some (Returned l) => l
  | _ => []
  end.

(** A text and a configuration on which the properties are exercised. *)
Definition sample_text : str :=
  of_string "Call me. Some years ago! Never mind how long." ++ [LF; LF]
  ++ of_string "I thought I would sail about a little.".

Definition sample_config : ChunkingConfig := cfg 20 4.

Definition sample_chunks : list TextChunk :=
  returned_chunks (chunk_text char_tokenizer sample_config sample_text).

(** * Facts about the string operations *)

Section StrFacts.

Lemma norm_index_range : forall n i, 0 <= n -> 0 <= norm_index n i <= n.
Proof.
  intros n i Hn. unfold norm_index.
  destruct (i <? 0) eqn:Hi; [apply Z.ltb_lt in Hi | apply Z.ltb_ge in Hi]; lia.
Qed.

Lemma norm_index_id : forall n i, 0 <= i <= n -> norm_index n i = i.
Proof.
  intros n i H. unfold norm_index.
  destruct (i <? 0) eqn:Hi; [apply Z.ltb_lt in Hi | apply Z.ltb_ge in Hi]; lia.
Qed.

Lemma len_nonneg : forall s, 0 <= len s.
Proof. intros s. unfold len. lia. Qed.

Lemma is_empty_true : forall s, is_empty s = true <-> s = [].
Proof. intros [|c s]; simpl; split; congruence. Qed.

Lemma is_empty_false : forall s, is_empty s = false <-> s <> [].
Proof. intros [|c s]; simpl; split; congruence. Qed.

Lemma slice_to_len : forall s, slice_to s (len s) = s.
Proof.
  intros s. unfold slice_to.
  rewrite norm_index_id by (pose proof (len_nonneg s); lia).
  unfold len. rewrite Nat2Z.id. apply firstn_all.
Qed.

Lemma slice_to_0 : forall s, slice_to s 0 = [].
Proof.
  intros s. unfold slice_to.
  rewrite norm_index_id by (pose proof (len_nonneg s); lia). reflexivity.
Qed.

Lemma slice_from_len : forall s, slice_from s (len s) = [].
Proof.
  intros s. unfold slice_from.
  rewrite norm_index_id by (pose proof (len_nonneg s); lia).
  unfold len. rewrite Nat2Z.id. apply skipn_all.
Qed.

Lemma len_slice_to : forall s j, 0 <= j <= len s -> len (slice_to s j) = j.
Proof.
  intros s j H. unfold slice_to. rewrite norm_index_id by lia.
  unfold len in *. rewrite length_firstn. lia.
Qed.

Lemma length_slice_from :
  forall s i, 1 <= i -> s <> [] -> (length (slice_from s i) < length s)%nat.
Proof.
  intros s i Hi Hs. unfold slice_from. rewrite length_skipn.
  assert (0 < len s) by (unfold len; destruct s; [congruence | simpl; lia]).
  unfold norm_index. destruct (i <? 0) eqn:E; [apply Z.ltb_lt in E; lia|].
  unfold len in *. lia.
Qed.

Lemma length_lstrip : forall s, (length (lstrip s) <= length s)%nat.
Proof.
  induction s as [|c s IH]; simpl; [lia|].
  destruct (isspace c); simpl; lia.
Qed.

Lemma length_strip : forall s, (length (strip s) <= length s)%nat.
Proof.
  intros s. unfold strip, rstrip.
  etransitivity; [apply length_lstrip|].
  rewrite length_rev.
  etransitivity; [apply length_lstrip|].
  rewrite length_rev. lia.
Qed.

Lemma strip_nil : strip [] = [].
Proof. reflexivity. Qed.

(** [lstrip] removes a prefix of whitespace and stops at the first other
    character. *)
Lemma lstrip_spec :
  forall s, exists ws, s = ws ++ lstrip s /\ forallb isspace ws = true
    /\ match lstrip s with c :: _ => isspace c = false | [] => True end.
Proof.
  induction s as [|c s (ws & Hs & Hws & Hhd)]; simpl.
  - exists []. repeat split.
  - destruct (isspace c) eqn:Hc.
    + exists (c :: ws). simpl. rewrite Hc, Hws. repeat split; [|exact Hhd].
      f_equal. exact Hs.
    + exists []. repeat split. exact Hc.
Qed.

Lemma lstrip_nil_iff : forall s, lstrip s = [] <-> forallb isspace s = true.
Proof.
  induction s as [|c s IH]; simpl; [tauto|].
  destruct (isspace c); simpl; [exact IH | split; discriminate].
Qed.

Lemma lstrip_fixed :
  forall c s, isspace c = false -> lstrip (c :: s) = c :: s.
Proof. intros c s H. simpl. rewrite H. reflexivity. Qed.

Lemma forallb_rev : forall (p : char -> bool) s,
  forallb p (rev s) = forallb p s.
Proof.
  intros p s. induction s as [|c s IH]; simpl; [reflexivity|].
  rewrite forallb_app, IH. simpl. rewrite andb_true_r. apply andb_comm.
Qed.

(** A string is blank (empty after trimming) exactly when all of its
    characters are whitespace. *)
Lemma strip_nil_iff : forall s, strip s = [] <-> forallb isspace s = true.
Proof.
  intros s. unfold strip, rstrip. rewrite lstrip_nil_iff, forallb_rev.
  destruct (lstrip_spec (rev s)) as (ws & Hs & Hws & _).
  assert (E : forallb isspace s = forallb isspace (lstrip (rev s))).
  { rewrite <- (forallb_rev isspace s). rewrite Hs at 1.
    rewrite forallb_app, Hws. reflexivity. }
  rewrite E. tauto.
Qed.

Lemma is_blank_iff :
  forall s, is_empty (strip s) = true <-> forallb isspace s = true.
Proof. intros s. rewrite is_empty_true. apply strip_nil_iff. Qed.

Lemma last_app_r :
  forall (l1 l2 : str) d, l2 <> [] -> last (l1 ++ l2) d = last l2 d.
Proof.
  intros l1 l2 d H. induction l1 as [|a l1 IH]; [reflexivity|].
  simpl app. simpl last. rewrite IH.
  destruct (l1 ++ l2) eqn:E; [|reflexivity].
  apply app_eq_nil in E. destruct E. congruence.
Qed.

(** The last character of a non-empty [lstrip s] is the last one of [s]. *)
Lemma last_lstrip :
  forall s d, lstrip s <> [] -> last (lstrip s) d = last s d.
Proof.
  intros s d H. destruct (lstrip_spec s) as (ws & Hs & _ & _).
  rewrite Hs at 2. symmetry. apply last_app_r. exact H.
Qed.

Lemma rstrip_spec :
  forall s, rstrip s = [] \/ isspace (last (rstrip s) 0%N) = false.
Proof.
  intros s. unfold rstrip.
  destruct (lstrip_spec (rev s)) as (_ & _ & _ & Hhd).
  destruct (lstrip (rev s)) as [|c t]; [left; reflexivity|].
  right. simpl. rewrite last_last. exact Hhd.
Qed.

Lemma rstrip_fixed :
  forall s, s <> [] -> isspace (last s 0%N) = false -> rstrip s = s.
Proof.
  intros s Hs Hl. unfold rstrip.
  destruct (exists_last Hs) as (t & c & ->).
  rewrite last_last in Hl. rewrite rev_app_distr. simpl.
  rewrite Hl. simpl. rewrite rev_involutive. reflexivity.
Qed.

(** Trimming is idempotent. *)
Lemma strip_strip : forall s, strip (strip s) = strip s.
Proof.
  intros s. destruct (strip s) as [|c t] eqn:E; [reflexivity|].
  assert (Hne : lstrip (rstrip s) <> []) by (unfold strip in E; congruence).
  assert (Hlast : isspace (last (c :: t) 0%N) = false).
  { rewrite <- E. unfold strip. rewrite last_lstrip by exact Hne.
    destruct (rstrip_spec s) as [H|H]; [|exact H].
    rewrite H in Hne. simpl in Hne. congruence. }
  assert (Hhd : isspace c = false).
  { destruct (lstrip_spec (rstrip s)) as (_ & _ & _ & H).
    unfold strip in E. rewrite E in H. exact H. }
  unfold strip at 1. rewrite rstrip_fixed by (congruence || exact Hlast).
  apply lstrip_fixed. exact Hhd.
Qed.

End StrFacts.

(** * Facts about the token manager *)

Section TokenManagerFacts.

Variable encode : str -> list Z.

Lemma count_tokens_nonneg : forall s, 0 <= count_tokens encode s.
Proof. intros s. unfold count_tokens. destruct (is_empty s); lia. Qed.

Lemma count_tokens_nil : count_tokens encode [] = 0.
Proof. reflexivity. Qed.

Lemma mid_between :
  forall left right, left <= right ->
    left <= (left + right) / 2 <= right.
Proof.
  intros left right H. split.
  - apply Z.div_le_lower_bound; lia.
  - apply Z.div_le_upper_bound; lia.
Qed.

(** The loop always leaves through its condition: the interval
    [left..right] loses at least one offset per iteration.  What it returns
    is the incoming [best_pos] or an offset of the interval within budget. *)
Lemma token_boundary_loop_returns :
  forall text target fuel left right best,
    right - left + 1 <= Z.of_nat fuel ->
    exists r, token_boundary_loop encode fuel text target left right best = Some r
      /\ (r = best \/ (left <= r <= right /\ fits encode text target r)).
Proof.
  intros text target fuel.
  induction fuel as [|fuel IH]; intros left right best Hfuel.
  - simpl. destruct (left <=? right) eqn:E; [apply Z.leb_le in E; lia|].
    exists best. auto.
  - simpl. destruct (left <=? right) eqn:E; [|exists best; auto].
    apply Z.leb_le in E. pose proof (mid_between E) as Hmid.
    destruct (count_tokens encode (slice_to text ((left + right) / 2))
                <=? target) eqn:Hc.
    + apply Z.leb_le in Hc.
      destruct (IH ((left + right) / 2 + 1) right ((left + right) / 2))
        as (r & Hr & Hcase); [lia|].
      exists r. split; [exact Hr|]. right.
      destruct Hcase as [-> | [Hin Hfit]]; [split; [lia | exact Hc]|].
      split; [lia | exact Hfit].
    + destruct (IH left ((left + right) / 2 - 1) best)
        as (r & Hr & Hcase); [lia|].
      exists r. split; [exact Hr|].
      destruct Hcase as [-> | [Hin Hfit]]; [left; reflexivity|].
      right. split; [lia | exact Hfit].
Qed.

(** [find_token_boundary] returns, and returns an offset of the text. *)
Lemma find_token_boundary_returns :
  forall text target,
    exists r, find_token_boundary encode text target = Some r /\ 0 <= r <= len text.
Proof.
  intros text target. unfold find_token_boundary.
  pose proof (len_nonneg text) as Hlen.
  destruct (is_empty text); [exists 0; split; [reflexivity | lia]|].
  destruct (_ <=? target); [exists (len text); split; [reflexivity | lia]|].
  destruct (@token_boundary_loop_returns text target (S (length text))
              0 (len text) 0) as (r & Hr & Hcase).
  { unfold len. lia. }
  exists r. split; [exact Hr|]. lia.
Qed.

(** What the loop invariant gives when the loop condition fails. *)
Lemma token_boundary_exit :
  forall text target left right best,
    0 <= left -> right <= len text -> left = right + 1 ->
    (forall p, 0 <= p < left -> fits encode text target p) ->
    (forall p, right < p <= len text -> ~ fits encode text target p) ->
    (0 < left -> best = left - 1) ->
    (left = 0 -> best = 0) ->
    0 <= best <= len text
    /\ (forall p, 0 <= p <= len text -> fits encode text target p -> p <= best)
    /\ ((exists p, 0 <= p <= len text /\ fits encode text target p) ->
        fits encode text target best)
    /\ ((forall p, 0 <= p <= len text -> ~ fits encode text target p) -> best = 0).
Proof.
  intros text target left right best Hl Hr -> Hlow Hhigh Hb Hb0.
  destruct (Z.eq_dec right (-1)) as [->|Hne].
  - rewrite Hb0 by reflexivity. pose proof (len_nonneg text).
    repeat split; try lia.
    + intros p Hp Hfit. exfalso. apply (Hhigh p); [lia | exact Hfit].
    + intros (p & Hp & Hfit). exfalso. apply (Hhigh p); [lia | exact Hfit].
  - rewrite Hb by lia. repeat split; try lia.
    + intros p Hp Hfit. destruct (Z_le_gt_dec p (right + 1 - 1)); [assumption|].
      exfalso. apply (Hhigh p); [lia | exact Hfit].
    + intros _. apply Hlow. lia.
    + intros Hnone. exfalso. apply (Hnone 0); [lia|]. apply Hlow. lia.
Qed.

(** Under the precondition, the loop keeps: every offset below [left] fits,
    no offset above [right] does, and [best_pos] is [left - 1] once an
    offset was accepted.  Its result is then the largest offset that fits,
    or [0] when none does. *)
Lemma token_boundary_loop_maximal :
  forall text target, prefix_monotone encode text ->
  forall fuel left right best r,
    0 <= left -> right <= len text -> left <= right + 1 ->
    (forall p, 0 <= p < left -> fits encode text target p) ->
    (forall p, right < p <= len text -> ~ fits encode text target p) ->
    (0 < left -> best = left - 1) ->
    (left = 0 -> best = 0) ->
    token_boundary_loop encode fuel text target left right best = Some r ->
    0 <= r <= len text
    /\ (forall p, 0 <= p <= len text -> fits encode text target p -> p <= r)
    /\ ((exists p, 0 <= p <= len text /\ fits encode text target p) ->
        fits encode text target r)
    /\ ((forall p, 0 <= p <= len text -> ~ fits encode text target p) -> r = 0).
Proof.
  intros text target Hmono fuel.
  induction fuel as [|fuel IH];
    intros left right best r Hl Hr Hlr Hlow Hhigh Hb Hb0 Hrun; simpl in Hrun;
    destruct (left <=? right) eqn:E; try discriminate.
  - apply Z.leb_gt in E. injection Hrun as <-.
    apply (@token_boundary_exit text target left right best); auto; lia.
  - apply Z.leb_le in E. pose proof (mid_between E) as Hmid.
    destruct (count_tokens encode (slice_to text ((left + right) / 2))
                <=? target) eqn:Hc.
    + apply Z.leb_le in Hc.
      refine (IH _ _ _ _ _ _ _ _ _ _ _ Hrun); try lia; [|exact Hhigh].
      intros p Hp. unfold fits.
      etransitivity; [apply (Hmono p ((left + right) / 2)); lia | exact Hc].
    + apply Z.leb_gt in Hc.
      refine (IH _ _ _ _ _ _ _ _ _ _ _ Hrun); try lia.
      * exact Hlow.
      * intros p Hp Hfit. unfold fits in Hfit.
        pose proof (Hmono ((left + right) / 2) p). lia.
  - apply Z.leb_gt in E. injection Hrun as <-.
    apply (@token_boundary_exit text target left right best); auto; lia.
Qed.

End TokenManagerFacts.

(** * Facts about the boundary optimizer *)

Section BoundaryOptimizerFacts.

Variable encode : str -> list Z.

Lemma consider_match_ok :
  forall text target start_pos score best m,
    0 <= start_pos -> score_in_range score = true ->
    candidate_ok best ->
    candidate_ok (consider_match encode text target start_pos score best m).
Proof.
  intros text target start_pos score best m Hs Hscore [Hpos Hsc].
  unfold consider_match.
  destruct (_is_within_token_limit _ _ _ _); [|split; assumption].
  destruct (ltb (snd best) score); split; simpl; try assumption. lia.
Qed.

Lemma scan_matches_ok :
  forall text target start_pos score ms best,
    0 <= start_pos -> score_in_range score = true ->
    candidate_ok best ->
    candidate_ok
      (fold_left (consider_match encode text target start_pos score) ms best).
Proof.
  intros text target start_pos score ms.
  induction ms as [|m ms IH]; intros best Hs Hscore Hbest; simpl;
    [exact Hbest|].
  apply IH; try assumption. apply consider_match_ok; assumption.
Qed.

(** [find_optimal_boundary] returns, with an offset that is not negative
    and a score in [0, 1]. *)
Lemma find_optimal_boundary_returns :
  forall text target,
    exists pos score,
      find_optimal_boundary encode text target = Some (pos, score)
      /\ 0 <= pos /\ score_in_range score = true.
Proof.
  intros text target. unfold find_optimal_boundary.
  destruct (is_empty text);
    [exists 0, 0.0%float; repeat split; lia|].
  destruct (_ <=? target);
    [exists (len text), 1.0%float; repeat split; apply len_nonneg|].
  destruct (find_token_boundary_returns encode text target)
    as (approx & -> & Happrox).
  match goal with
  | |- exists pos score, Some ?b = _ /\ _ =>
      assert (H : candidate_ok b); [|exists (fst b), (snd b)]
  end.
  - repeat match goal with
           | |- candidate_ok (if ?c then _ else _) => destruct c
           | |- candidate_ok (fold_left _ _ _) =>
               apply scan_matches_ok; [lia | reflexivity |]
           end;
    split; simpl; try lia; reflexivity.
  - split; [rewrite <- surjective_pairing; reflexivity | exact H].
Qed.

(** The last piece of a split is the text after the last match. *)
Lemma last_pieces_suffix :
  forall s spans from, exists k, last (Re.pieces s from spans) [] = skipn k s.
Proof.
  intros s spans. induction spans as [|[a b] rest IH]; intros from.
  - exists from. reflexivity.
  - destruct (IH b) as (k & Hk). exists k.
    simpl. destruct (Re.pieces s b rest) eqn:E; [|exact Hk].
    destruct rest as [|[? ?] ?]; discriminate E.
Qed.

Lemma skipn_suffix :
  forall (s : str) k, exists pre, s = pre ++ skipn k s.
Proof. intros s k. exists (firstn k s). symmetry. apply firstn_skipn. Qed.

End BoundaryOptimizerFacts.

(** A non-empty text within the budget is taken whole. *)
Lemma find_optimal_boundary_whole :
  forall encode text target,
    text <> [] -> count_tokens encode text <= target ->
    find_optimal_boundary encode text target = Some (len text, 1.0%float).
Proof.
  intros encode text target Hne Hfit. unfold find_optimal_boundary.
  apply is_empty_false in Hne. rewrite Hne.
  apply Z.leb_le in Hfit. rewrite Hfit. reflexivity.
Qed.


(** [create_overlap] returns, and what it returns ends the text. *)
Lemma create_overlap_returns :
  forall encode text overlap,
    exists r pre,
      create_overlap encode text overlap = Some r /\ text = pre ++ r.
Proof.
  intros encode text overlap.
  unfold create_overlap.
  destruct (is_empty text || (overlap <=? 0)).
  { exists [], text. split; [reflexivity | symmetry; apply app_nil_r]. }
  destruct (find_token_boundary_returns encode text overlap)
    as (pos & -> & Hpos).
  destruct (pos >=? len text).
  { exists text, []. split; reflexivity. }
  assert (Hov : exists k,
             (if pos >? 0 then slice_from text (- pos) else []) = skipn k text).
  { destruct (pos >? 0).
    - eexists. reflexivity.
    - exists (length text). symmetry. apply skipn_all. }
  destruct Hov as (k & ->).
  destruct (last_pieces_suffix (skipn k text) (Re.finditer Re.sentence_end (skipn k text)) 0)
    as (k' & Hlast).
  unfold Re.split. rewrite Hlast.
  destruct (_ >? 1).
  - destruct (is_empty (skipn k' (skipn k text))).
    + destruct (skipn_suffix text k) as (pre & Hpre).
      exists (skipn k text), pre. split; [reflexivity | exact Hpre].
    + destruct (skipn_suffix text (k' + k)) as (pre & Hpre).
      exists (skipn k' (skipn k text)), pre. rewrite skipn_skipn.
      split; [reflexivity | exact Hpre].
  - destruct (skipn_suffix text k) as (pre & Hpre).
    exists (skipn k text), pre. split; [reflexivity | exact Hpre].
Qed.

(** * Facts about the boundary context *)

Lemma firstn_add_split :
  forall (l : str) n m, firstn (n + m) l = firstn n l ++ firstn m (skipn n l).
Proof.
  intros l n. revert l. induction n as [|n IH]; intros l m; [reflexivity|].
  destruct l as [|c l]; simpl.
  - rewrite firstn_nil. reflexivity.
  - f_equal. apply IH.
Qed.

Lemma contains2_iff :
  forall a b s,
    contains2 a b s = true
    <-> exists k, nth_error s k = Some a /\ nth_error s (S k) = Some b.
Proof.
  intros a b s. induction s as [|x s IH]; simpl.
  - split; [discriminate | intros (k & H & _); destruct k; discriminate].
  - destruct s as [|y s'].
    + split; [discriminate|]. intros (k & H1 & H2).
      destruct k; [discriminate|]. destruct k; discriminate.
    + rewrite orb_true_iff, andb_true_iff, !N.eqb_eq, IH. split.
      * intros [[-> ->] | (k & H1 & H2)]; [exists O; auto|].
        exists (S k). auto.
      * intros (k & H1 & H2). destruct k as [|k].
        -- left. simpl in H1, H2. split; congruence.
        -- right. exists k. auto.
Qed.

Lemma contains1_iff :
  forall c s, contains1 c s = true <-> exists k, nth_error s k = Some c.
Proof.
  intros c s. unfold contains1. rewrite existsb_exists. split.
  - intros (x & Hin & Hx). apply N.eqb_eq in Hx. subst x.
    apply In_nth_error. exact Hin.
  - intros (k & Hk). exists c. split; [|apply N.eqb_refl].
    apply nth_error_In with k. exact Hk.
Qed.

(** A search succeeds exactly when the pattern matches at some offset. *)
Lemma scan_nonempty_iff :
  forall m s pos,
    Re.scan m s pos O <> []
    <-> exists k, (k < length s)%nat /\ m (skipn k s) <> None.
Proof.
  intros m s. induction s as [|c s IH]; intros pos; simpl.
  - split; [congruence | intros (k & Hk & _); lia].
  - destruct (m (c :: s)) as [l|] eqn:Hm.
    + split; [|discriminate]. intros _. exists O. split; [lia|].
      simpl. congruence.
    + rewrite IH. split.
      * intros (k & Hk & Hmk). exists (S k). split; [lia | exact Hmk].
      * intros (k & Hk & Hmk). destruct k as [|k]; [simpl in Hmk; congruence|].
        exists k. split; [lia | exact Hmk].
Qed.

Lemma search_sentence_end1_iff :
  forall s,
    Re.search Re.sentence_end1 s = true
    <-> exists k p w, nth_error s k = Some p /\ nth_error s (S k) = Some w
          /\ is_sentence_punct p = true /\ isspace w = true.
Proof.
  intros s.
  assert (Hat : forall k,
            Re.sentence_end1 (skipn k s) <> None
            <-> exists p w, nth_error s k = Some p /\ nth_error s (S k) = Some w
                  /\ is_sentence_punct p = true /\ isspace w = true).
  { intros k.
    assert (H0 : nth_error s k = nth_error (skipn k s) 0)
      by (rewrite nth_error_skipn, Nat.add_0_r; reflexivity).
    assert (H1 : nth_error s (S k) = nth_error (skipn k s) 1)
      by (rewrite nth_error_skipn, Nat.add_1_r; reflexivity).
    rewrite H0, H1. unfold Re.sentence_end1.
    destruct (skipn k s) as [|a [|b t]]; simpl.
    - split; [congruence | intros (p & w & H & _); discriminate].
    - split; [congruence | intros (p & w & _ & H & _); discriminate].
    - destruct (is_sentence_punct a && isspace b) eqn:E.
      + apply andb_true_iff in E. split; [|congruence].
        intros _. exists a, b. tauto.
      + split; [congruence|]. intros (p & w & [= <-] & [= <-] & Hp & Hw).
        rewrite Hp, Hw in E. discriminate. }
  assert (Hsearch : Re.search Re.sentence_end1 s = true
                    <-> Re.scan Re.sentence_end1 s 0 0 <> []).
  { unfold Re.search, Re.finditer.
    destruct (Re.scan Re.sentence_end1 s 0 0); split; congruence. }
  rewrite Hsearch, scan_nonempty_iff. split.
  - intros (k & _ & Hk). exists k. apply Hat. exact Hk.
  - intros (k & Hk). exists k. split; [|apply Hat; exact Hk].
    destruct Hk as (p & w & Hp & _). apply nth_error_Some. congruence.
Qed.

(** The context examined at an inner position holds the characters of the
    text at the offsets within five of the position. *)
Lemma boundary_context_nth :
  forall text position, 0 < position < len text ->
  forall i x,
    (in_context position i /\ char_at text i = Some x)
    <-> (Z.max 0 (position - 5) <= i
         /\ nth_error (boundary_context text position)
              (Z.to_nat (i - Z.max 0 (position - 5))) = Some x).
Proof.
  intros text position Hpos i x.
  set (a := Z.max 0 (position - 5)).
  set (b := Z.min (len text) (position + 5)).
  assert (Hctx : boundary_context text position
                 = firstn (Z.to_nat (b - a)) (skipn (Z.to_nat a) text)).
  { unfold boundary_context, slice. fold a b.
    rewrite !norm_index_id by lia.
    replace (Z.to_nat (b - a))
      with (Z.to_nat (position - a) + Z.to_nat (b - position))%nat by lia.
    rewrite firstn_add_split, skipn_skipn.
    replace (Z.to_nat (position - a) + Z.to_nat a)%nat
      with (Z.to_nat position) by lia.
    reflexivity. }
  rewrite Hctx, nth_error_firstn, nth_error_skipn.
  unfold in_context, char_at.
  destruct (i <? 0) eqn:Hi; [apply Z.ltb_lt in Hi | apply Z.ltb_ge in Hi].
  - split; [intros (_ & H); discriminate | intros (H & _); lia].
  - destruct (Z_lt_le_dec i a) as [Hlt | Hge].
    + split; [intros (H & _) | intros (H & _)]; lia.
    + replace (Z.to_nat a + Z.to_nat (i - a))%nat with (Z.to_nat i) by lia.
      destruct (Nat.ltb_spec (Z.to_nat (i - a)) (Z.to_nat (b - a))) as [Hk|Hk].
      * split; [intros (_ & H); split; [lia | exact H]|].
        intros (_ & H). split; [lia | exact H].
      * split; [|intros (_ & H); discriminate].
        intros (Hin & Hx). exfalso.
        assert (Z.to_nat i < length text)%nat
          by (apply nth_error_Some; congruence).
        unfold len in *. lia.
Qed.

Lemma boundary_context_pair :
  forall text position, 0 < position < len text ->
  forall (P Q : char -> Prop),
    (exists i p w, in_context position i /\ in_context position (i + 1)
       /\ char_at text i = Some p /\ char_at text (i + 1) = Some w
       /\ P p /\ Q w)
    <-> (exists k p w,
           nth_error (boundary_context text position) k = Some p
           /\ nth_error (boundary_context text position) (S k) = Some w
           /\ P p /\ Q w).
Proof.
  intros text position Hpos P Q.
  pose proof (boundary_context_nth text Hpos) as Hnth.
  set (a := Z.max 0 (position - 5)) in *. split.
  - intros (i & p & w & Hi & Hi1 & Hp & Hw & HP & HQ).
    destruct (proj1 (Hnth i p) (conj Hi Hp)) as (Ha & Hkp).
    destruct (proj1 (Hnth (i + 1) w) (conj Hi1 Hw)) as (_ & Hkw).
    exists (Z.to_nat (i - a)), p, w.
    replace (Z.to_nat (i + 1 - a)) with (S (Z.to_nat (i - a))) in Hkw by lia.
    tauto.
  - intros (k & p & w & Hp & Hw & HP & HQ).
    exists (a + Z.of_nat k), p, w.
    destruct (proj2 (Hnth (a + Z.of_nat k) p)) as (Hi & Hcp).
    { split; [lia|]. replace (Z.to_nat (a + Z.of_nat k - a)) with k by lia.
      exact Hp. }
    destruct (proj2 (Hnth (a + Z.of_nat k + 1) w)) as (Hi1 & Hcw).
    { split; [lia|].
      replace (Z.to_nat (a + Z.of_nat k + 1 - a)) with (S k) by lia.
      exact Hw. }
    tauto.
Qed.

Lemma boundary_context_single :
  forall text position, 0 < position < len text ->
  forall x,
    (exists i, in_context position i /\ char_at text i = Some x)
    <-> contains1 x (boundary_context text position) = true.
Proof.
  intros text position Hpos x. rewrite contains1_iff.
  pose proof (boundary_context_nth text Hpos) as Hnth.
  set (a := Z.max 0 (position - 5)) in *. split.
  - intros (i & Hi & Hx). destruct (proj1 (Hnth i x) (conj Hi Hx)) as (_ & H).
    eauto.
  - intros (k & Hk). exists (a + Z.of_nat k). apply Hnth.
    split; [lia|]. replace (Z.to_nat (a + Z.of_nat k - a)) with k by lia.
    exact Hk.
Qed.

Lemma paragraph_break_near_iff :
  forall text position, 0 < position < len text ->
    paragraph_break_near text position
    <-> contains2 LF LF (boundary_context text position) = true.
Proof.
  intros text position Hpos. rewrite contains2_iff.
  pose proof (boundary_context_pair text Hpos (eq LF) (eq LF)) as H.
  unfold paragraph_break_near. split.
  - intros (i & Hi & Hi1 & Hc & Hc1).
    destruct (proj1 H) as (k & p & w & Hp & Hw & <- & <-);
      [exists i, LF, LF; tauto | eauto].
  - intros (k & Hk & Hk1).
    destruct (proj2 H) as (i & p & w & Hi & Hi1 & Hp & Hw & <- & <-);
      [exists k, LF, LF; tauto | eauto].
Qed.

Lemma sentence_end_near_iff :
  forall text position, 0 < position < len text ->
    sentence_end_near text position
    <-> Re.search Re.sentence_end1 (boundary_context text position) = true.
Proof.
  intros text position Hpos. rewrite search_sentence_end1_iff.
  apply (boundary_context_pair text Hpos
           (fun p => is_sentence_punct p = true) (fun w => isspace w = true)).
Qed.

(** * Facts about chunk kinds *)

Lemma tail_kinds_no_first :
  forall l, tail_kinds l -> count_kind FIRST l = 0%nat.
Proof.
  intros l H. induction H as [|c Hc|c l Hc H IH]; unfold count_kind in *;
    simpl; try rewrite Hc; simpl; auto.
Qed.

Lemma tail_kinds_nth :
  forall l, tail_kinds l ->
  forall i c, nth_error l i = Some c ->
    ((S i < length l)%nat -> chunk_type c = MIDDLE)
    /\ (chunk_type c = FINAL -> S i = length l).
Proof.
  intros l H. induction H as [|c0 Hc|c0 l Hc H IH]; intros i c Hnth.
  - destruct i; discriminate.
  - destruct i as [|i]; [|destruct i; discriminate].
    injection Hnth as <-. simpl. split; [lia | reflexivity].
  - destruct i as [|i]; simpl in Hnth.
    + injection Hnth as <-. split; [intros _; exact Hc | congruence].
    + destruct (IH i c Hnth) as [Hmid Hfin]. simpl. split.
      * intros Hlt. apply Hmid. lia.
      * intros Hf. rewrite (Hfin Hf). reflexivity.
Qed.

(** * Facts about the chunking loop *)

Section ChunkerFacts.

Variable encode : str -> list Z.
Variable config : ChunkingConfig.

Lemma new_TextChunk_returned :
  forall x c, new_TextChunk x = Returned c -> c = x.
Proof.
  intros x c. unfold new_TextChunk.
  repeat match goal with |- context [if ?b then _ else _] => destruct b end;
    congruence.
Qed.

Lemma new_TextChunk_raised :
  forall x e, new_TextChunk x = Raised e -> e <> input_error.
Proof.
  intros x e. unfold new_TextChunk, input_error.
  repeat match goal with |- context [if ?b then _ else _] => destruct b end;
    intros H; inversion H; discriminate.
Qed.

Lemma new_TextChunk_valid :
  forall x,
    0 <= chunk_id x -> strip (text x) <> [] -> 0 < token_count x ->
    score_in_range (boundary_score x) = true ->
    new_TextChunk x = Returned x.
Proof.
  intros x Hid Htext Htok Hscore. unfold new_TextChunk.
  apply Z.ltb_ge in Hid. rewrite Hid.
  apply is_empty_false in Htext. rewrite Htext.
  apply Z.leb_gt in Htok. rewrite Htok.
  unfold score_in_range in Hscore. apply negb_true_iff in Hscore.
  rewrite Hscore. reflexivity.
Qed.

Lemma count_tokens_positive :
  nonempty_tokens encode -> forall s, s <> [] -> 0 < count_tokens encode s.
Proof.
  intros Hne s Hs. unfold count_tokens.
  apply is_empty_false in Hs. rewrite Hs. apply is_empty_false in Hs.
  specialize (Hne s Hs). destruct (encode s); [congruence | simpl; lia].
Qed.

(** The overlap of an iteration is always computed. *)
Lemma overlap_chars_returns :
  forall (b : bool) chunk overlap,
    exists n,
      (if b then option_map len (create_overlap encode chunk overlap)
       else Some 0) = Some n.
Proof.
  intros b chunk overlap. destruct b; [|eauto].
  destruct (create_overlap_returns encode chunk overlap) as (r & _ & -> & _).
  simpl. eauto.
Qed.

Lemma tail_kinds_cons_blank :
  forall c, chunk_type c <> FIRST -> tail_kinds [c].
Proof.
  intros c H. destruct (chunk_type c) eqn:E; [congruence | |].
  - apply tail_middle; [exact E | constructor].
  - apply tail_final. exact E.
Qed.

(** One unfolding of the loop on a blank remaining text. *)
Lemma chunk_loop_blank :
  forall fuel chunks remaining id pos,
    is_empty (strip remaining) = true ->
    chunk_loop encode config fuel chunks remaining id pos
      = Some (Returned chunks).
Proof.
  intros fuel chunks remaining id pos H.
  destruct fuel; cbn [chunk_loop]; rewrite H; reflexivity.
Qed.

(** One unfolding of the loop on an empty extraction. *)
Lemma chunk_loop_empty_extraction :
  forall fuel chunks remaining id pos bp bs,
    find_optimal_boundary encode remaining (get_effective_chunk_size config)
      = Some (bp, bs) ->
    is_empty (strip (slice_to remaining bp)) = true ->
    chunk_loop encode config (S fuel) chunks remaining id pos
      = Some (Returned chunks).
Proof.
  intros fuel chunks remaining id pos bp bs Hfob H.
  cbn [chunk_loop]. rewrite Hfob, H.
  destruct (is_empty (strip remaining)); reflexivity.
Qed.

(** The conclusions of [chunk_loop_outcome] when the loop returns the
    chunks it was entered with. *)
Lemma returned_unchanged :
  forall (chunks : list TextChunk) (id : Z),
    (forall res, Returned chunks = Returned res ->
       exists more, res = chunks ++ more /\ kinds_from id more)
    /\ (forall e, Returned chunks = Raised e -> e <> input_error)
    /\ (nonempty_tokens encode -> exists res, Returned chunks = Returned res).
Proof.
  intros chunks id. repeat split.
  - intros res [= <-]. exists []. split; [symmetry; apply app_nil_r|].
    unfold kinds_from. destruct (id =? 0); [left; reflexivity | constructor].
  - discriminate.
  - eauto.
Qed.

(** The loop runs to an outcome within [length remaining_text] iterations.
    A returned list extends the chunks built so far, with kinds in the
    order the counter dictates; the loop does not raise the input error;
    and with a tokenizer that gives tokens to every non-empty string it
    does not raise at all. *)
Lemma chunk_loop_outcome :
  forall fuel chunks remaining id pos,
    (length remaining <= fuel)%nat -> 0 <= id ->
    exists o,
      chunk_loop encode config fuel chunks remaining id pos = Some o
      /\ (forall res, o = Returned res ->
            exists more, res = chunks ++ more /\ kinds_from id more)
      /\ (forall e, o = Raised e -> e <> input_error)
      /\ (nonempty_tokens encode -> exists res, o = Returned res).
Proof.
  induction fuel as [|fuel IH]; intros chunks remaining id pos Hfuel Hid.
  { destruct remaining; [|simpl in Hfuel; lia].
    eexists. split; [reflexivity | apply returned_unchanged]. }
  destruct (is_empty (strip remaining)) eqn:Hblank.
  { rewrite chunk_loop_blank by exact Hblank.
    eexists. split; [reflexivity | apply returned_unchanged]. }
  destruct (find_optimal_boundary_returns encode remaining
              (get_effective_chunk_size config))
    as (bp & bs & Hfob & Hbp & Hbs).
  destruct (is_empty (strip (slice_to remaining bp))) eqn:Hchunk.
  { rewrite (chunk_loop_empty_extraction _ _ _ _ _ Hfob Hchunk).
    eexists. split; [reflexivity | apply returned_unchanged]. }
  cbn [chunk_loop]. rewrite Hblank, Hfob, Hchunk.
  destruct (overlap_chars_returns ((id >? 0) && (overlap_tokens config >? 0))
              (strip (slice_to remaining bp)) (overlap_tokens config))
    as (ov & ->).
  match goal with
  | |- context [new_TextChunk ?x] =>
      set (c := x); destruct (new_TextChunk c) as [c'|e] eqn:Hnew
  end.
  2:{ exists (Raised e). split; [reflexivity|]. repeat split.
      - discriminate.
      - intros e' [= <-]. exact (new_TextChunk_raised _ Hnew).
      - intros Htok. exfalso.
        rewrite new_TextChunk_valid in Hnew; [discriminate | exact Hid | | |exact Hbs].
        + unfold c. cbn [text]. rewrite strip_strip.
          apply is_empty_false. exact Hchunk.
        + unfold c. cbn [token_count].
          apply count_tokens_positive; [exact Htok|].
          apply is_empty_false. exact Hchunk. }
  apply new_TextChunk_returned in Hnew. subst c'.
  assert (Hkind : if id =? 0 then chunk_type c = FIRST
                  else chunk_type c <> FIRST).
  { unfold c. cbn [chunk_type]. destruct (id =? 0); [reflexivity|].
    match goal with |- (if ?b then _ else _) <> _ => destruct b end;
      discriminate. }
  destruct (bp =? 0) eqn:Hbp0.
  { exists (Returned (chunks ++ [c])). split; [reflexivity|]. repeat split.
    - intros res [= <-]. exists [c]. split; [reflexivity|].
      unfold kinds_from. destruct (id =? 0).
      + right. exists c, []. split; [reflexivity|].
        split; [exact Hkind | constructor].
      + apply tail_kinds_cons_blank. exact Hkind.
    - discriminate.
    - eauto. }
  apply Z.eqb_neq in Hbp0.
  assert (Hshort : (length (strip (slice_from remaining bp)) <= fuel)%nat).
  { pose proof (length_strip (slice_from remaining bp)).
    assert (remaining <> []).
    { intros ->. rewrite strip_nil in Hblank. discriminate. }
    pose proof (@length_slice_from remaining bp ltac:(lia) ltac:(assumption)).
    lia. }
  destruct (IH (chunks ++ [c]) (strip (slice_from remaining bp)) (id + 1)
              (pos + bp) Hshort ltac:(lia))
    as (o & Hrun & Hret & Hraise & Htok).
  exists o. split; [exact Hrun|]. repeat split; [|exact Hraise | exact Htok].
  intros res ->. destruct (Hret res eq_refl) as (more & -> & Hmore).
  exists (c :: more). split; [rewrite <- app_assoc; reflexivity|].
  unfold kinds_from in Hmore.
  replace (id + 1 =? 0) with false in Hmore by (symmetry; apply Z.eqb_neq; lia).
  unfold kinds_from. destruct (id =? 0) eqn:Hid0.
  - right. exists c, more. split; [reflexivity|]. split; assumption.
  - destruct (chunk_type c) eqn:Hc; [congruence | |].
    + apply tail_middle; assumption.
    + assert (Hafter : is_empty (strip (slice_from remaining bp)) = true).
      { unfold c in Hc. cbn [chunk_type] in Hc. try rewrite Hid0 in Hc.
        destruct (is_empty (strip (slice_from remaining bp)));
          [reflexivity | discriminate]. }
      rewrite chunk_loop_blank in Hrun by (rewrite strip_strip; exact Hafter).
      injection Hrun as Hrun.
      assert (more = []).
      { apply (app_inv_head (chunks ++ [c])).
        rewrite app_nil_r. congruence. }
      subst more. apply tail_final. exact Hc.
Qed.

End ChunkerFacts.

(** With a tokenizer that gives tokens to every non-empty string, a text
    that is not blank is chunked without error. *)
Lemma chunk_text_returns :
  forall encode config text,
    nonempty_tokens encode -> is_empty (strip text) = false ->
    exists chunks, chunk_text encode config text = Some (Returned chunks).
Proof.
  intros encode config text Htok Hblank. unfold chunk_text. rewrite Hblank.
  destruct (chunk_loop_outcome encode config [] text 0 (le_n _) (Z.le_refl _))
    as (o & Hrun & _ & _ & Hres).
  destruct (Hres Htok) as (res & ->). eauto.
Qed.


(** * Facts about the model tokenizers *)

Lemma count_tokens_char_tokenizer :
  forall s, count_tokens char_tokenizer s = len s.
Proof.
  intros s. unfold count_tokens, char_tokenizer, len.
  destruct s; [reflexivity|]. simpl is_empty. cbv iota.
  rewrite length_map. reflexivity.
Qed.

Lemma prefix_monotone_char_tokenizer :
  forall text, prefix_monotone char_tokenizer text.
Proof.
  intros text i j Hij Hj. rewrite !count_tokens_char_tokenizer.
  rewrite !len_slice_to by lia. lia.
Qed.

Lemma nonempty_tokens_utf8_tokenizer : nonempty_tokens utf8_tokenizer.
Proof.
  intros [|c s] Hs; [congruence|]. unfold utf8_tokenizer. simpl.
  unfold utf8_length.
  destruct (c <? 128)%N; [discriminate|].
  destruct (c <? 2048)%N; [discriminate|].
  destruct (c <? 65536)%N; discriminate.
Qed.

Lemma nonempty_tokens_char_tokenizer : nonempty_tokens char_tokenizer.
Proof. intros [|c s] Hs; [congruence | discriminate]. Qed.

(** * Runs on concrete inputs *)

Example strip_example :
  strip (of_string "  one two  ") = of_string "one two".
Proof. reflexivity. Qed.

Example slice_negative_example :
  slice_from (of_string "abcdef") (-2) = of_string "ef"
  /\ slice_to (of_string "abcdef") 9 = of_string "abcdef"
  /\ slice (of_string "abcdef") 1 4 = of_string "bcd".
Proof. repeat split. Qed.

Example finditer_paragraph_example :
  Re.finditer Re.paragraph_break [97; 10; 10; 10; 98; 10; 99; 10; 10]%N
    = [(1, 4); (7, 9)]%nat.
Proof. reflexivity. Qed.

Example finditer_sentence_example :
  Re.finditer Re.sentence_end (of_string "Hi.  Ok! no.end? ")
    = [(2, 5); (7, 9); (15, 17)]%nat.
Proof. reflexivity. Qed.

Example split_sentence_example :
  Re.split Re.sentence_end (of_string "Hi.  Ok! no.end? ")
    = [of_string "Hi"; of_string "Ok"; of_string "no.end"; []].
Proof. reflexivity. Qed.

Example find_token_boundary_example :
  find_token_boundary utf8_tokenizer [97; 233; 98; 233]%N 4 = Some 3.
Proof. reflexivity. Qed.

Example find_optimal_boundary_paragraph_example :
  find_optimal_boundary char_tokenizer
    (of_string "aaaaaaaa" ++ [10; 10]%N ++ of_string "bbbbbbbbbbbbbbbbbbbb") 9
    = Some (10, 1.0%float).
Proof. vm_compute. reflexivity. Qed.

Example create_overlap_example :
  create_overlap char_tokenizer (of_string "One. Two! Three") 12
    = Some (of_string "Three").
Proof. vm_compute. reflexivity. Qed.

Example get_boundary_info_example :
  bi_type (get_boundary_info (of_string "one. two three four") 5)
    = "sentence"%string
  /\ bi_type (get_boundary_info (of_string "one. two three four") 12)
       = "word"%string
  /\ bi_type (get_boundary_info (of_string "abcdefghijklmnopqrstuvwxyz") 12)
       = "character"%string
  /\ bi_type (get_boundary_info (of_string "one. two") 8) = "edge"%string.
Proof. repeat split. Qed.

(** * Properties *)

(** ** Configuration *)

(** C6: constructing a [ChunkingConfig] raises exactly when
    [max_chunk_tokens <= 0], [overlap_tokens < 0] or
    [overlap_tokens >= max_chunk_tokens]; otherwise it returns the record of
    its arguments.  In particular [max_chunk_tokens = 50] with
    [overlap_tokens = 50] raises.  The error is the outcome of the
    construction itself: a run that builds the configuration and then
    chunks ends with it whatever the text and the tokenizer. *)
Theorem new_ChunkingConfig_raises_iff :
  forall (m o : Z) (name : string),
    ((exists e, new_ChunkingConfig m o name = Raised e)
       <-> (m <= 0 \/ o < 0 \/ o >= m))
    /\ (~ (m <= 0 \/ o < 0 \/ o >= m) ->
        new_ChunkingConfig m o name =
          Returned {| max_chunk_tokens := m; overlap_tokens := o;
                      tokenizer_name := name |})
    /\ (exists e, new_ChunkingConfig 50 50 name = Raised e)
    /\ (m <= 0 \/ o < 0 \/ o >= m ->
        exists e, new_ChunkingConfig m o name = Raised e
          /\ forall encode text,
               chunk_with encode m o name text = Some (Raised e)).
Proof.
  intros m o name.
  assert (Hraise : m <= 0 \/ o < 0 \/ o >= m ->
                   exists e, new_ChunkingConfig m o name = Raised e).
  { intros H. unfold new_ChunkingConfig.
    destruct (m <=? 0) eqn:Hm; [eauto|]. apply Z.leb_gt in Hm.
    destruct (o <? 0) eqn:Ho; [eauto|]. apply Z.ltb_ge in Ho.
    destruct (o >=? m) eqn:Hom; [eauto|].
    rewrite Z.geb_leb in Hom. apply Z.leb_gt in Hom. lia. }
  assert (Hreturn : ~ (m <= 0 \/ o < 0 \/ o >= m) ->
                    new_ChunkingConfig m o name =
                      Returned {| max_chunk_tokens := m; overlap_tokens := o;
                                  tokenizer_name := name |}).
  { intros H. unfold new_ChunkingConfig.
    destruct (m <=? 0) eqn:Hm; [apply Z.leb_le in Hm; lia|].
    destruct (o <? 0) eqn:Ho; [apply Z.ltb_lt in Ho; lia|].
    destruct (o >=? m) eqn:Hom; [apply Z.geb_le in Hom; lia|].
    reflexivity. }
  split; [|split; [exact Hreturn | split]].
  - split; [|exact Hraise]. intros [e He].
    destruct (Z_le_gt_dec m 0); [lia|]. destruct (Z_lt_ge_dec o 0); [lia|].
    destruct (Z_lt_ge_dec o m); [|lia].
    rewrite Hreturn in He by lia. discriminate He.
  - eexists. reflexivity.
  - intros H. destruct (Hraise H) as (e & He). exists e.
    split; [exact He|]. intros encode text. unfold chunk_with.
    rewrite He. reflexivity.
Qed.

(** ** Boundary search *)

(** C9, the claim at the empty string: [find_optimal_boundary] returns
    [(0, 0.0)], not [(len(text), 1.0)], although the empty text fits. *)
Lemma find_optimal_boundary_empty_counterexample :
  count_tokens char_tokenizer [] <= 5
  /\ find_optimal_boundary char_tokenizer [] 5 = Some (0, 0.0%float)
  /\ find_optimal_boundary char_tokenizer [] 5 <> Some (len [], 1.0%float).
Proof.
  repeat split; [vm_compute; discriminate | discriminate].
Qed.

(** C9, as amended: for every non-empty text and every [target_tokens], if
    the token count of the text is at most [target_tokens] then
    [find_optimal_boundary] returns [(len(text), 1.0)]; for the empty text
    it returns [(0, 0.0)] whatever the budget. *)
Theorem find_optimal_boundary_fits :
  forall encode text target,
    count_tokens encode text <= target ->
    (text <> [] ->
       find_optimal_boundary encode text target = Some (len text, 1.0%float))
    /\ (text = [] ->
          find_optimal_boundary encode text target = Some (0, 0.0%float)).
Proof.
  intros encode text target Hfit. split.
  - intros Hne. apply find_optimal_boundary_whole; assumption.
  - intros ->. reflexivity.
Qed.

Lemma find_optimal_boundary_fits_witness :
  find_optimal_boundary char_tokenizer (of_string "one two") 7
    = Some (7, 1.0%float).
Proof.
  apply (@find_optimal_boundary_fits char_tokenizer (of_string "one two") 7).
  - vm_compute. discriminate.
  - discriminate.
Defined.

(** ** Token boundary *)

(** C2, the claim at a negative target: the text has more tokens than the
    target, and the offset returned, [0], has a prefix that is not within
    the target (no offset is). *)
Lemma find_token_boundary_negative_target_counterexample :
  prefix_monotone char_tokenizer (of_string "a")
  /\ ~ count_tokens char_tokenizer (of_string "a") <= -1
  /\ find_token_boundary char_tokenizer (of_string "a") (-1) = Some 0
  /\ ~ fits char_tokenizer (of_string "a") (-1) 0.
Proof.
  split; [apply prefix_monotone_char_tokenizer|].
  repeat split; vm_compute; congruence.
Qed.

(** C2, as amended: for every text and target, if the token count of a
    prefix does not decrease with the length of the prefix, then
    [find_token_boundary] returns [len(text)] when
    [count_tokens(text) <= target]; otherwise, for [target >= 0], it
    returns the largest offset of [0..len(text)] whose prefix has a token
    count [<= target], and for [target < 0], where no offset has one, it
    returns [0]. *)
Theorem find_token_boundary_maximal_prefix :
  forall encode text target,
    prefix_monotone encode text ->
    exists r,
      find_token_boundary encode text target = Some r
      /\ (count_tokens encode text <= target -> r = len text)
      /\ (target < count_tokens encode text -> 0 <= target ->
            0 <= r <= len text
            /\ fits encode text target r
            /\ forall p, 0 <= p <= len text ->
                 fits encode text target p -> p <= r)
      /\ (target < count_tokens encode text -> target < 0 -> r = 0).
Proof.
  intros encode text target Hmono.
  unfold find_token_boundary.
  destruct text as [|c text'] eqn:Htext.
  - exists 0. change (count_tokens encode []) with 0.
    change (len []) with 0.
    split; [reflexivity|]. split; [reflexivity|]. split; [lia | reflexivity].
  - rewrite <- Htext in *. replace (is_empty text) with false by (subst; reflexivity).
    destruct (count_tokens encode text <=? target) eqn:Hc.
    + apply Z.leb_le in Hc. exists (len text).
      repeat split; try reflexivity; lia.
    + apply Z.leb_gt in Hc.
      destruct (@token_boundary_loop_returns encode text target
                  (S (length text)) 0 (len text) 0) as (r & Hr & _).
      { unfold len. lia. }
      exists r. split; [exact Hr|].
      pose proof (len_nonneg text) as Hlen.
      apply (token_boundary_loop_maximal Hmono) in Hr; try lia.
      destruct Hr as (Hrange & Hmax & Hsome & Hnone).
      split; [lia|]. split.
      * intros _ Htarget. repeat split; try lia; [|exact Hmax].
        apply Hsome. exists 0. split; [lia|].
        unfold fits. rewrite slice_to_0. simpl. exact Htarget.
      * intros _ Hneg. apply Hnone. intros p _ Hfit. unfold fits in Hfit.
        pose proof (count_tokens_nonneg encode (slice_to text p)). lia.
Qed.

Lemma find_token_boundary_maximal_prefix_witness :
  exists r,
    find_token_boundary char_tokenizer (of_string "one two three") 5 = Some r
    /\ (count_tokens char_tokenizer (of_string "one two three") <= 5 ->
        r = len (of_string "one two three"))
    /\ (5 < count_tokens char_tokenizer (of_string "one two three") ->
        0 <= 5 ->
        0 <= r <= len (of_string "one two three")
        /\ fits char_tokenizer (of_string "one two three") 5 r
        /\ forall p, 0 <= p <= len (of_string "one two three") ->
             fits char_tokenizer (of_string "one two three") 5 p -> p <= r)
    /\ (5 < count_tokens char_tokenizer (of_string "one two three") ->
        5 < 0 -> r = 0).
Proof.
  apply (@find_token_boundary_maximal_prefix char_tokenizer
           (of_string "one two three") 5).
  apply prefix_monotone_char_tokenizer.
Defined.

(** ** Overlap *)

(** C10: for every text and every [overlap_tokens], [create_overlap]
    returns a contiguous suffix of the text (possibly empty, possibly the
    whole text), so its length is at most [len(text)]. *)
Theorem create_overlap_suffix :
  forall encode text overlap,
    exists r,
      create_overlap encode text overlap = Some r
      /\ (exists pre, text = pre ++ r)
      /\ len r <= len text.
Proof.
  intros encode text overlap.
  destruct (create_overlap_returns encode text overlap) as (r & pre & Hr & Hpre).
  exists r. split; [exact Hr|]. split; [exists pre; exact Hpre|].
  unfold len. rewrite Hpre, length_app. lia.
Qed.

(** ** The chunking loop *)

(** C4: for every input text and configuration, with the tokenizer a total
    function, [chunk_text] finishes: on a blank input it raises, and
    otherwise its loop reaches an outcome within [len(text)] iterations
    (it returns a chunk list when the tokenizer gives every non-empty
    string a token).  Whatever the loop returns extends the chunks built
    so far, and each clean terminal condition (blank remaining text, empty
    extracted chunk, zero-length boundary) returns exactly the chunks
    built so far. *)
Theorem chunk_text_terminates :
  forall encode config text,
    (exists o, chunk_text encode config text = Some o)
    /\ (is_empty (strip text) = true ->
          chunk_text encode config text = Some (Raised input_error))
    /\ (nonempty_tokens encode -> is_empty (strip text) = false ->
          exists chunks, chunk_text encode config text = Some (Returned chunks))
    /\ (forall fuel chunks remaining id pos,
          (length remaining <= fuel)%nat -> 0 <= id ->
          exists o,
            chunk_loop encode config fuel chunks remaining id pos = Some o
            /\ (forall res, o = Returned res ->
                  exists more, res = chunks ++ more)
            /\ (is_empty (strip remaining) = true -> o = Returned chunks)
            /\ (forall bp bs,
                  find_optimal_boundary encode remaining
                    (get_effective_chunk_size config) = Some (bp, bs) ->
                  is_empty (strip (slice_to remaining bp)) = true ->
                  o = Returned chunks)
            /\ (forall bs,
                  find_optimal_boundary encode remaining
                    (get_effective_chunk_size config) = Some (0, bs) ->
                  o = Returned chunks)).
Proof.
  intros encode config text.
  assert (Hloop : forall fuel chunks remaining id pos,
            (length remaining <= fuel)%nat -> 0 <= id ->
            exists o,
              chunk_loop encode config fuel chunks remaining id pos = Some o
              /\ (forall res, o = Returned res ->
                    exists more, res = chunks ++ more)
              /\ (is_empty (strip remaining) = true -> o = Returned chunks)
              /\ (forall bp bs,
                    find_optimal_boundary encode remaining
                      (get_effective_chunk_size config) = Some (bp, bs) ->
                    is_empty (strip (slice_to remaining bp)) = true ->
                    o = Returned chunks)).
  { intros fuel chunks remaining id pos Hfuel Hid.
    destruct (chunk_loop_outcome encode config chunks remaining pos Hfuel Hid)
      as (o & Hrun & Hret & _ & _).
    exists o. split; [exact Hrun|]. split; [|split].
    - intros res Hres. destruct (Hret res Hres) as (more & Hmore & _).
      exists more. exact Hmore.
    - intros Hblank. rewrite chunk_loop_blank in Hrun by exact Hblank.
      congruence.
    - intros bp bs Hfob Hchunk. destruct fuel as [|fuel].
      + destruct remaining; [|simpl in Hfuel; lia].
        rewrite chunk_loop_blank in Hrun by reflexivity. congruence.
      + rewrite (chunk_loop_empty_extraction _ _ _ _ _ _ _ Hfob Hchunk) in Hrun.
        congruence. }
  split; [|split; [|split]].
  - unfold chunk_text. destruct (is_empty (strip text)); [eauto|].
    destruct (Hloop (length text) [] text 0 0 (le_n _) (Z.le_refl _))
      as (o & Hrun & _). eauto.
  - intros Hblank. unfold chunk_text. rewrite Hblank. reflexivity.
  - apply chunk_text_returns.
  - intros fuel chunks remaining id pos Hfuel Hid.
    destruct (Hloop fuel chunks remaining id pos Hfuel Hid)
      as (o & Hrun & Hret & Hblank & Hempty).
    exists o. repeat (split; [assumption|]).
    intros bs Hfob. apply (Hempty 0 bs Hfob).
    rewrite slice_to_0. reflexivity.
Qed.

(** C7: [chunk_text], and the iterator form, raise the input error exactly
    when every character of the text is whitespace (the text is empty
    after trimming), and then no chunk sequence is returned.  On any other
    text the only errors left are those of the [TextChunk] invariants, and
    there is none when the tokenizer gives tokens to every non-empty
    string. *)
Theorem chunk_text_input_error_iff :
  forall encode config text,
    (chunk_text encode config text = Some (Raised input_error)
       <-> forallb isspace text = true)
    /\ (chunk_text_iterator encode config text = Some (Raised input_error)
          <-> forallb isspace text = true)
    /\ (forallb isspace text = true ->
          forall chunks,
            chunk_text encode config text <> Some (Returned chunks)
            /\ chunk_text_iterator encode config text
                 <> Some (Returned chunks))
    /\ (nonempty_tokens encode -> forallb isspace text = false ->
          exists chunks,
            chunk_text encode config text = Some (Returned chunks)
            /\ chunk_text_iterator encode config text
                 = Some (Returned chunks)).
Proof.
  intros encode config text.
  assert (Hiff : chunk_text encode config text = Some (Raised input_error)
                 <-> forallb isspace text = true).
  { rewrite <- is_blank_iff. unfold chunk_text.
    destruct (is_empty (strip text)) eqn:Hblank; [tauto|].
    split; [|discriminate]. intros Hrun. exfalso.
    destruct (chunk_loop_outcome encode config [] text 0 (le_n _) (Z.le_refl _))
      as (o & Hrun' & _ & Hraise & _).
    rewrite Hrun in Hrun'. injection Hrun' as <-.
    exact (Hraise input_error eq_refl eq_refl). }
  unfold chunk_text_iterator. split; [exact Hiff|]. split; [exact Hiff|].
  split.
  - intros Hblank chunks. apply Hiff in Hblank. rewrite Hblank.
    split; discriminate.
  - intros Htok Hblank.
    destruct (@chunk_text_returns encode config text Htok) as (chunks & Hrun).
    + destruct (is_empty (strip text)) eqn:E; [|reflexivity].
      apply is_blank_iff in E. congruence.
    + exists chunks. split; exact Hrun.
Qed.

(** C5, the claim on two runs: a text led by whitespace past the budget is
    chunked into the empty sequence, which has no [FIRST] chunk; and a run
    cut short by an empty extraction returns two chunks, [FIRST] and
    [MIDDLE], none of them [FINAL]. *)
Lemma chunk_kinds_counterexample :
  (new_ChunkingConfig 2 0 "cl100k_base" = Returned (cfg 2 0)
   /\ chunk_text char_tokenizer (cfg 2 0) (of_string "   a")
        = Some (Returned [])
   /\ ~ kinds_as_specified [])
  /\ (new_ChunkingConfig 1 0 "cl100k_base" = Returned (cfg 1 0)
      /\ exists c1 c2,
        chunk_text utf8_tokenizer (cfg 1 0) [97; 98; 233]%N
          = Some (Returned [c1; c2])
        /\ chunk_type c1 = FIRST /\ chunk_type c2 = MIDDLE
        /\ ~ kinds_as_specified [c1; c2]).
Proof.
  split.
  - split; [reflexivity|]. split; [vm_compute; reflexivity|].
    intros (H & _). vm_compute in H. discriminate.
  - split; [reflexivity|].
    eexists. eexists. split; [vm_compute; reflexivity|].
    split; [reflexivity|]. split; [reflexivity|].
    intros (_ & _ & H & _). destruct (H ltac:(simpl; lia)) as (Hfinal & _).
    vm_compute in Hfinal. discriminate.
Qed.

(** C3, the claim with an overlap reserve: the text has 8 tokens, fewer
    than [max_chunk_tokens = 10], and is not blank, yet two chunks are
    returned and the first has score 0.5: the loop fills chunks up to
    [max_chunk_tokens - overlap_tokens = 5]. *)
Lemma chunk_text_below_max_counterexample :
  new_ChunkingConfig 10 5 "cl100k_base" = Returned (cfg 10 5)
  /\ count_tokens char_tokenizer (of_string "aaaaaaaa")
       < max_chunk_tokens (cfg 10 5)
  /\ is_empty (strip (of_string "aaaaaaaa")) = false
  /\ exists c1 c2,
       chunk_text char_tokenizer (cfg 10 5) (of_string "aaaaaaaa")
         = Some (Returned [c1; c2])
       /\ boundary_score c1 = 0.5%float
       /\ boundary_score c1 <> 1.0%float.
Proof.
  split; [reflexivity|]. split; [reflexivity|]. split; [reflexivity|].
  eexists. eexists. split; [vm_compute; reflexivity|].
  split; [reflexivity|]. vm_compute. discriminate.
Qed.

(** C3, as amended: for every non-blank text whose token count is at most
    [max_chunk_tokens - overlap_tokens] (the effective chunk size), with a
    tokenizer that gives every non-empty string a token, [chunk_text]
    returns exactly one chunk: the trimmed text, of kind [FIRST], with
    [boundary_score] 1.0 and [overlap_with_previous] 0. *)
Theorem chunk_text_single_chunk :
  forall encode config input,
    nonempty_tokens encode ->
    is_empty (strip input) = false ->
    count_tokens encode input
      <= max_chunk_tokens config - overlap_tokens config ->
    exists c,
      chunk_text encode config input = Some (Returned [c])
      /\ chunk_type c = FIRST
      /\ boundary_score c = 1.0%float
      /\ overlap_with_previous c = 0
      /\ text c = strip input.
Proof.
  intros encode config input Htok Hblank Hfit.
  assert (Hne : input <> []).
  { intros ->. rewrite strip_nil in Hblank. discriminate. }
  assert (Hfob : find_optimal_boundary encode input
                   (get_effective_chunk_size config)
                 = Some (len input, 1.0%float)).
  { apply find_optimal_boundary_whole; assumption. }
  unfold chunk_text. rewrite Hblank.
  destruct input as [|ch input'] eqn:Hinput; [congruence|].
  rewrite <- Hinput in *. replace (length input) with (S (length input'))
    by (rewrite Hinput; reflexivity).
  cbn [chunk_loop]. rewrite Hblank, Hfob, slice_to_len, Hblank.
  change ((0 >? 0) && (overlap_tokens config >? 0)) with false. cbv iota.
  rewrite slice_from_len, strip_nil.
  rewrite new_TextChunk_valid.
  - replace (len input =? 0) with false.
    + rewrite chunk_loop_blank by reflexivity.
      eexists. split; [reflexivity|]. repeat split.
    + symmetry. apply Z.eqb_neq. unfold len. rewrite Hinput. simpl. lia.
  - simpl. lia.
  - cbn [text].
    rewrite strip_strip. apply is_empty_false. exact Hblank.
  - cbn [token_count]. apply count_tokens_positive; [exact Htok|].
    apply is_empty_false. exact Hblank.
  - reflexivity.
Qed.

Lemma chunk_text_single_chunk_witness :
  exists c,
    chunk_text utf8_tokenizer (cfg 10 5) (of_string " one ") = Some (Returned [c])
    /\ chunk_type c = FIRST
    /\ boundary_score c = 1.0%float
    /\ overlap_with_previous c = 0
    /\ text c = strip (of_string " one ").
Proof.
  apply (@chunk_text_single_chunk utf8_tokenizer (cfg 10 5) (of_string " one ")).
  - apply nonempty_tokens_utf8_tokenizer.
  - reflexivity.
  - vm_compute. discriminate.
Defined.

(** ** Token limit *)

(** C1, at a valid configuration without overlap: the search window holds a
    sentence end 13 characters in, past the 10-token target but within the
    50-token tolerance, and the chunk cut there has 12 tokens, more than
    [max_chunk_tokens = 10]; [validate_chunks] reports it. *)
Theorem chunk_text_exceeds_token_limit :
  new_ChunkingConfig 10 0 "cl100k_base" = Returned (cfg 10 0)
  /\ exists c rest,
       chunk_text char_tokenizer (cfg 10 0)
         (of_string "aaaaaaaaaaa. bbbbbbbbbbbbbbbbb")
         = Some (Returned (c :: rest))
       /\ text c = of_string "aaaaaaaaaaa."
       /\ token_count c = 12
       /\ max_chunk_tokens (cfg 10 0) < token_count c
       /\ validate_chunks (cfg 10 0) (c :: rest)
            = [ExceedsTokenLimit 0 12 10].
Proof.
  split; [reflexivity|].
  eexists. eexists. split; [vm_compute; reflexivity|].
  repeat split.
Qed.

(** ** Boundary classification *)

(** C8: for every text and position, [get_boundary_info] reports the
    position and classifies it by the characters at most five offsets
    away, in priority order: a blank line (two consecutive line feeds)
    gives "paragraph" with score 1.0; else a sentence punctuation followed
    by whitespace gives "sentence" with 0.8; else a line feed gives "line"
    with 0.6; else a space gives "word" with 0.4; else "character" with
    0.1.  A position at or beyond either end of the text ([<= 0] or
    [>= len(text)]) gives "edge" with score 0.0 whatever the text. *)
Theorem get_boundary_info_classifies :
  forall text position,
    let info := get_boundary_info text position in
    bi_position info = position
    /\ (position <= 0 \/ len text <= position ->
          bi_type info = "edge"%string /\ bi_score info = 0.0%float)
    /\ (0 < position < len text ->
          (paragraph_break_near text position ->
             bi_type info = "paragraph"%string /\ bi_score info = 1.0%float)
          /\ (~ paragraph_break_near text position ->
              sentence_end_near text position ->
                bi_type info = "sentence"%string
                /\ bi_score info = 0.8%float)
          /\ (~ paragraph_break_near text position ->
              ~ sentence_end_near text position ->
              line_break_near text position ->
                bi_type info = "line"%string /\ bi_score info = 0.6%float)
          /\ (~ paragraph_break_near text position ->
              ~ sentence_end_near text position ->
              ~ line_break_near text position ->
              space_near text position ->
                bi_type info = "word"%string /\ bi_score info = 0.4%float)
          /\ (~ paragraph_break_near text position ->
              ~ sentence_end_near text position ->
              ~ line_break_near text position ->
              ~ space_near text position ->
                bi_type info = "character"%string
                /\ bi_score info = 0.1%float)).
Proof.
  intros text position info. subst info. unfold get_boundary_info.
  destruct ((position <=? 0) || (position >=? len text)) eqn:Hedge.
  - split; [reflexivity|]. split; [intros _; split; reflexivity|].
    intros Hin. exfalso. apply orb_true_iff in Hedge.
    destruct Hedge as [H|H]; [apply Z.leb_le in H | apply Z.geb_le in H]; lia.
  - apply orb_false_iff in Hedge. destruct Hedge as [H0 Hlen].
    apply Z.leb_gt in H0. rewrite Z.geb_leb in Hlen. apply Z.leb_gt in Hlen.
    fold (boundary_context text position).
    assert (Hpos : 0 < position < len text) by lia.
    pose proof (paragraph_break_near_iff text Hpos) as Hpar.
    pose proof (sentence_end_near_iff text Hpos) as Hsent.
    pose proof (boundary_context_single text Hpos LF) as Hline.
    pose proof (boundary_context_single text Hpos SPACE) as Hspace.
    fold (line_break_near text position) in Hline.
    fold (space_near text position) in Hspace.
    destruct (contains2 LF LF (boundary_context text position));
      [|destruct (Re.search Re.sentence_end1 (boundary_context text position));
        [|destruct (contains1 LF (boundary_context text position));
          [|destruct (contains1 SPACE (boundary_context text position))]]];
      (split; [reflexivity|]); (split; [intros; lia|]); intros _;
      repeat split; intros; try reflexivity;
      repeat match goal with
             | H : ~ _ |- _ => exfalso; apply H; tauto
             | H : _ <-> false = true |- _ =>
                 let E := fresh in
                 destruct H as [E _];
                 match goal with
                 | H' : _ |- _ => discriminate (E H')
                 end
             end.
Qed.

(** * The loop and its relation *)

Section RunFacts.

Variable encode : str -> list Z.
Variable config : ChunkingConfig.

(** A list returned by the loop extends the chunks it was entered with by
    a run, and the run ends in one of the two clean ways. *)
Lemma chunk_loop_run :
  forall fuel chunks remaining id pos res,
    chunk_loop encode config fuel chunks remaining id pos
      = Some (Returned res) ->
    exists more leftover,
      res = chunks ++ more
      /\ run encode config remaining id pos more leftover
      /\ stops encode config leftover.
Proof.
  induction fuel as [|fuel IH]; intros chunks remaining id pos res Hrun;
    cbn [chunk_loop] in Hrun;
    destruct (is_empty (strip remaining)) eqn:Hblank; try discriminate;
    try (injection Hrun as <-; exists [], remaining;
         split; [symmetry; apply app_nil_r|];
         split; [constructor | left; exact Hblank]).
  destruct (find_optimal_boundary encode remaining
              (get_effective_chunk_size config)) as [[bp bs]|] eqn:Hfob;
    [|discriminate].
  destruct (is_empty (strip (slice_to remaining bp))) eqn:Hchunk.
  { injection Hrun as <-. exists [], remaining.
    split; [symmetry; apply app_nil_r|]. split; [constructor|].
    right. exists bp, bs. split; assumption. }
  fold (loop_overlap encode config id (strip (slice_to remaining bp))) in Hrun.
  destruct (loop_overlap encode config id (strip (slice_to remaining bp)))
    as [ov|] eqn:Hov; [|discriminate].
  change (new_TextChunk _)
    with (new_TextChunk (loop_chunk encode remaining id pos bp bs ov)) in Hrun.
  destruct (new_TextChunk (loop_chunk encode remaining id pos bp bs ov))
    as [c|e] eqn:Hnew; [|discriminate].
  pose proof (new_TextChunk_returned _ Hnew) as ->.
  destruct (bp =? 0) eqn:Hbp0.
  { apply Z.eqb_eq in Hbp0. subst bp.
    rewrite slice_to_0 in Hchunk. discriminate. }
  destruct (IH _ _ _ _ _ Hrun) as (more & leftover & -> & Hmore & Hstop).
  exists (loop_chunk encode remaining id pos bp bs ov :: more), leftover.
  split; [rewrite <- app_assoc; reflexivity|].
  split; [|exact Hstop].
  econstructor; eassumption.
Qed.

Lemma chunk_text_run :
  forall text chunks,
    chunk_text encode config text = Some (Returned chunks) ->
    is_empty (strip text) = false
    /\ exists leftover,
         run encode config text 0 0 chunks leftover
         /\ stops encode config leftover.
Proof.
  intros text chunks Hrun. unfold chunk_text in Hrun.
  destruct (is_empty (strip text)) eqn:Hblank; [discriminate|].
  split; [reflexivity|].
  destruct (chunk_loop_run _ _ _ _ _ Hrun) as (more & leftover & E & H & Hs).
  simpl in E. subst more. eauto.
Qed.

End RunFacts.

(** * Further facts about strings and patterns *)

(** Trimming removes whitespace at both ends and nothing else. *)
Lemma strip_spec :
  forall s, exists wa wb,
    s = wa ++ strip s ++ wb
    /\ forallb isspace wa = true /\ forallb isspace wb = true.
Proof.
  intros s. unfold strip.
  destruct (lstrip_spec (rev s)) as (wr & Hr & Hwr & _).
  destruct (lstrip_spec (rstrip s)) as (wa & Ha & Hwa & _).
  exists wa, (rev wr). split; [|split; [exact Hwa|]].
  - rewrite app_assoc, <- Ha. unfold rstrip.
    rewrite <- rev_app_distr, <- Hr, rev_involutive. reflexivity.
  - rewrite forallb_rev. exact Hwr.
Qed.

Lemma span_while_spec :
  forall p s,
    (Re.span_while p s <= length s)%nat
    /\ forall j, (j < Re.span_while p s)%nat ->
         exists c, nth_error s j = Some c /\ p c = true.
Proof.
  intros p s. induction s as [|c s [IHlen IHnth]]; simpl.
  - split; [lia | intros j Hj; lia].
  - destruct (p c) eqn:Hc; [|split; [lia | intros j Hj; lia]].
    split; [lia|]. intros [|j] Hj; [exists c; auto|].
    apply IHnth. lia.
Qed.

Lemma paragraph_break_spec :
  forall t l, Re.paragraph_break t = Some l ->
    (2 <= l <= length t)%nat
    /\ forall j, (j < l)%nat -> nth_error t j = Some LF.
Proof.
  intros [|a [|b t]] l H; simpl in H; try discriminate.
  destruct ((a =? LF)%N && (b =? LF)%N) eqn:E; [|discriminate].
  apply andb_true_iff in E. destruct E as [Ha Hb].
  apply N.eqb_eq in Ha, Hb. subst a b. injection H as <-.
  destruct (span_while_spec (fun c => (c =? LF)%N) t) as [Hlen Hnth].
  split; [simpl; lia|]. intros [|[|j]] Hj; try reflexivity.
  destruct (Hnth j ltac:(lia)) as (c & Hc & Hlf).
  apply N.eqb_eq in Hlf. subst c. exact Hc.
Qed.

Lemma sentence_end_spec :
  forall t l, Re.sentence_end t = Some l ->
    (2 <= l <= length t)%nat
    /\ (exists p, nth_error t 0 = Some p /\ is_sentence_punct p = true)
    /\ forall j, (1 <= j < l)%nat ->
         exists w, nth_error t j = Some w /\ isspace w = true.
Proof.
  intros [|a [|b t]] l H; simpl in H; try discriminate.
  destruct (is_sentence_punct a && isspace b) eqn:E; [|discriminate].
  apply andb_true_iff in E. destruct E as [Ha Hb]. injection H as <-.
  destruct (span_while_spec isspace t) as [Hlen Hnth].
  split; [simpl; lia|]. split; [exists a; auto|].
  intros [|[|j]] Hj; [lia | exists b; auto |].
  apply Hnth. lia.
Qed.

Lemma line_break_spec :
  forall t l, Re.line_break t = Some l ->
    l = 1%nat /\ nth_error t 0 = Some LF.
Proof.
  intros [|a t] l H; simpl in H; [discriminate|].
  destruct (a =? LF)%N eqn:E; [|discriminate].
  apply N.eqb_eq in E. subst a. injection H as <-. auto.
Qed.

(** Every span reported by a scan is a match of the pattern at its start. *)
Lemma scan_spans :
  forall m s pos skip a b,
    In (a, b) (Re.scan m s pos skip) ->
    exists k l,
      (skip <= k < length s)%nat /\ a = (pos + k)%nat /\ b = (a + l)%nat
      /\ m (skipn k s) = Some l.
Proof.
  intros m s. induction s as [|c s IH]; intros pos skip a b Hin;
    simpl in Hin; [contradiction|].
  destruct skip as [|skip].
  - destruct (m (c :: s)) as [l|] eqn:Hm.
    + destruct Hin as [[= <- <-] | Hin].
      * exists O, l. simpl. repeat split; try lia. exact Hm.
      * destruct (IH _ _ _ _ Hin) as (k & l' & Hk & -> & -> & Hl).
        exists (S k), l'. simpl. repeat split; try lia. exact Hl.
    + destruct (IH _ _ _ _ Hin) as (k & l' & Hk & -> & -> & Hl).
      exists (S k), l'. simpl. repeat split; try lia. exact Hl.
  - destruct (IH _ _ _ _ Hin) as (k & l' & Hk & -> & -> & Hl).
    exists (S k), l'. simpl. repeat split; try lia. exact Hl.
Qed.

(** The characters of a slice are those of the text at the shifted
    offsets. *)
Lemma slice_spec :
  forall text a b, 0 <= a <= b -> b <= len text ->
    slice text a b = firstn (Z.to_nat (b - a)) (skipn (Z.to_nat a) text)
    /\ length (slice text a b) = Z.to_nat (b - a)
    /\ forall j, (j < Z.to_nat (b - a))%nat ->
         nth_error (slice text a b) j = char_at text (a + Z.of_nat j).
Proof.
  intros text a b Hab Hb. unfold slice. rewrite !norm_index_id by lia.
  split; [reflexivity|]. split.
  - rewrite length_firstn, length_skipn. unfold len in Hb. lia.
  - intros j Hj. rewrite nth_error_firstn, nth_error_skipn.
    apply Nat.ltb_lt in Hj. rewrite Hj. unfold char_at.
    replace (a + Z.of_nat j <? 0) with false by (symmetry; apply Z.ltb_ge; lia).
    f_equal. lia.
Qed.

(** * Further facts about the boundary search *)

Section BoundarySearchFacts.

Variable encode : str -> list Z.

(** A scanning loop entered below its score keeps the incoming pair or
    moves to the end of a match within the tolerance. *)
Lemma fold_consider_cases :
  forall text target start score ms best,
    let r := fold_left (consider_match encode text target start score) ms best in
    r = best
    \/ exists m, In m ms
         /\ within_tolerance encode text target (start + Z.of_nat (snd m))
         /\ r = (start + Z.of_nat (snd m), score).
Proof.
  intros text target start score ms.
  induction ms as [|m ms IH]; intros best; simpl; [left; reflexivity|].
  destruct (IH (consider_match encode text target start score best m))
    as [E | (m' & Hin & Hw & E)].
  - rewrite E. unfold consider_match.
    destruct (_is_within_token_limit encode _ target 50) eqn:Hlim;
      [|left; reflexivity].
    destruct (ltb (snd best) score); [|left; reflexivity].
    right. exists m. split; [left; reflexivity|]. split; [|reflexivity].
    unfold _is_within_token_limit in Hlim. apply Z.leb_le in Hlim. exact Hlim.
  - right. exists m'. split; [right; exact Hin|]. split; assumption.
Qed.

(** The outcomes of [find_optimal_boundary] on a text over the budget:
    the approximate offset with the base score, or the end of a match of
    one of the three patterns in the search window, within the tolerance,
    with the score of the pattern. *)
Lemma find_optimal_boundary_cases :
  forall text target,
    text <> [] -> target < count_tokens encode text ->
    exists approx,
      find_token_boundary encode text target = Some approx
      /\ 0 <= approx <= len text
      /\ (approx = 0 \/ fits encode text target approx)
      /\ let w := Z.min 500 (len text / 10) in
         let start := Z.max 0 (approx - w) in
         let stop := Z.min (len text) (approx + w) in
         let window := slice text start stop in
         let found (m : Re.matcher) (score : float) :=
           exists s, In s (Re.finditer m window)
             /\ within_tolerance encode text target (start + Z.of_nat (snd s))
             /\ find_optimal_boundary encode text target
                  = Some (start + Z.of_nat (snd s), score) in
         find_optimal_boundary encode text target = Some (approx, 0.5%float)
         \/ found Re.paragraph_break 1.0%float
         \/ found Re.sentence_end 0.8%float
         \/ found Re.line_break 0.6%float.
Proof.
  intros text target Hne Hover.
  destruct (find_token_boundary_returns encode text target)
    as (approx & Hfind & Hrange).
  exists approx. split; [exact Hfind|]. split; [exact Hrange|]. split.
  { unfold find_token_boundary in Hfind.
    apply is_empty_false in Hne. rewrite Hne in Hfind.
    apply Z.leb_gt in Hover. rewrite Hover in Hfind.
    destruct (@token_boundary_loop_returns encode text target
                (S (length text)) 0 (len text) 0) as (r & Hr & Hcase).
    { unfold len. lia. }
    rewrite Hfind in Hr. injection Hr as <-.
    destruct Hcase as [-> | [_ Hfit]]; [left; reflexivity | right; exact Hfit]. }
  cbv zeta. unfold find_optimal_boundary.
  apply is_empty_false in Hne. rewrite Hne.
  apply Z.leb_gt in Hover. rewrite Hover, Hfind.
  set (start := Z.max 0 (approx - Z.min 500 (len text / 10))).
  set (window := slice text start _).
  destruct (fold_consider_cases text target start 1.0%float
              (Re.finditer Re.paragraph_break window) (approx, 0.5%float))
    as [E | (m & Hin & Hw & E)]; cbv zeta in E; rewrite E; cbn [snd].
  2:{ right. left. exists m. split; [exact Hin|]. split; [exact Hw|].
      reflexivity. }
  replace (ltb 0.5 0.9) with true by reflexivity.
  destruct (fold_consider_cases text target start 0.8%float
              (Re.finditer Re.sentence_end window) (approx, 0.5%float))
    as [E2 | (m & Hin & Hw & E2)]; cbv zeta in E2; rewrite E2; cbn [snd].
  2:{ right. right. left. exists m. split; [exact Hin|]. split; [exact Hw|].
      reflexivity. }
  replace (ltb 0.5 0.7) with true by reflexivity.
  destruct (fold_consider_cases text target start 0.6%float
              (Re.finditer Re.line_break window) (approx, 0.5%float))
    as [E3 | (m & Hin & Hw & E3)]; cbv zeta in E3; rewrite E3.
  - left. reflexivity.
  - right. right. right. exists m. split; [exact Hin|]. split; [exact Hw|].
    reflexivity.
Qed.

End BoundarySearchFacts.

Section BoundaryLandingFacts.

Variable encode : str -> list Z.

(** A match found in a slice of the text, read at the offsets of the
    text. *)
Lemma match_in_window :
  forall text start stop m a b,
    0 <= start <= stop -> stop <= len text ->
    In (a, b) (Re.finditer m (slice text start stop)) ->
    exists t l,
      m t = Some l /\ b = (a + l)%nat
      /\ (a + length t = Z.to_nat (stop - start))%nat
      /\ forall j, (j < length t)%nat ->
           nth_error t j = char_at text (start + Z.of_nat a + Z.of_nat j).
Proof.
  intros text start stop m a b Hs Hstop Hin.
  destruct (slice_spec text Hs Hstop) as (_ & Hlen & Hnth).
  destruct (@scan_spans _ _ _ _ _ _ Hin) as (k & l & Hk & Ha & Hb & Hm).
  simpl in Ha. subst a.
  exists (skipn k (slice text start stop)), l.
  split; [exact Hm|]. split; [exact Hb|]. split.
  - rewrite length_skipn. lia.
  - intros j Hj. rewrite length_skipn in Hj.
    rewrite nth_error_skipn, Hnth by lia. f_equal. lia.
Qed.

(** The search window of [find_optimal_boundary] around [approx]. *)
Lemma window_bounds :
  forall (text : str) approx,
    0 <= approx <= len text ->
    let w := Z.min 500 (len text / 10) in
    0 <= w
    /\ 0 <= Z.max 0 (approx - w) <= Z.min (len text) (approx + w)
    /\ Z.min (len text) (approx + w) <= len text.
Proof.
  intros text approx Happrox w.
  assert (0 <= len text / 10) by (apply Z.div_pos; lia).
  subst w. lia.
Qed.

Lemma paragraph_match_lands :
  forall text start stop s,
    0 <= start <= stop -> stop <= len text ->
    In s (Re.finditer Re.paragraph_break (slice text start stop)) ->
    start < start + Z.of_nat (snd s) <= stop
    /\ ends_paragraph text (start + Z.of_nat (snd s)).
Proof.
  intros text start stop [a b] Hs Hstop Hin.
  destruct (@match_in_window _ _ _ _ _ _ Hs Hstop Hin)
    as (t & l & Hm & -> & Hlen & Hnth).
  destruct (@paragraph_break_spec _ _ Hm) as (Hl & Hlf).
  simpl snd. split; [lia|]. unfold ends_paragraph. split.
  - rewrite <- (Hlf (l - 2)%nat), Hnth by lia. f_equal. lia.
  - rewrite <- (Hlf (l - 1)%nat), Hnth by lia. f_equal. lia.
Qed.

Lemma sentence_match_lands :
  forall text start stop s,
    0 <= start <= stop -> stop <= len text ->
    In s (Re.finditer Re.sentence_end (slice text start stop)) ->
    start < start + Z.of_nat (snd s) <= stop
    /\ ends_sentence text (start + Z.of_nat (snd s)).
Proof.
  intros text start stop [a b] Hs Hstop Hin.
  destruct (@match_in_window _ _ _ _ _ _ Hs Hstop Hin)
    as (t & l & Hm & -> & Hlen & Hnth).
  destruct (@sentence_end_spec _ _ Hm) as (Hl & (p & Hp & Hpunct) & Hws).
  simpl snd. split; [lia|].
  exists (start + Z.of_nat a), p. split; [lia|]. split; [lia|]. split.
  - rewrite <- Hp, Hnth by lia. f_equal. lia.
  - split; [exact Hpunct|]. intros j Hj.
    destruct (Hws (Z.to_nat (j - start - Z.of_nat a)) ltac:(lia))
      as (w & Hw & Hspace).
    exists w. split; [|exact Hspace].
    rewrite <- Hw, Hnth by lia. f_equal. lia.
Qed.

Lemma line_match_lands :
  forall text start stop s,
    0 <= start <= stop -> stop <= len text ->
    In s (Re.finditer Re.line_break (slice text start stop)) ->
    start < start + Z.of_nat (snd s) <= stop
    /\ ends_line text (start + Z.of_nat (snd s)).
Proof.
  intros text start stop [a b] Hs Hstop Hin.
  destruct (@match_in_window _ _ _ _ _ _ Hs Hstop Hin)
    as (t & l & Hm & -> & Hlen & Hnth).
  destruct (@line_break_spec _ _ Hm) as (-> & Hlf).
  assert (0 < length t)%nat by (destruct t; [discriminate | simpl; lia]).
  simpl snd. split; [lia|]. unfold ends_line.
  rewrite <- Hlf, Hnth by lia. f_equal. lia.
Qed.

(** Where [find_optimal_boundary] cuts a text over the budget. *)
Lemma boundary_search_outcome :
  forall text target,
    text <> [] -> target < count_tokens encode text ->
    exists approx pos score,
      find_token_boundary encode text target = Some approx
      /\ find_optimal_boundary encode text target = Some (pos, score)
      /\ 0 <= pos <= len text
      /\ approx - Z.min 500 (len text / 10) <= pos
           <= approx + Z.min 500 (len text / 10)
      /\ ((score = 0.5%float /\ pos = approx
           /\ (pos = 0 \/ fits encode text target pos))
          \/ (score = 1.0%float /\ ends_paragraph text pos
              /\ within_tolerance encode text target pos)
          \/ (score = 0.8%float /\ ends_sentence text pos
              /\ within_tolerance encode text target pos)
          \/ (score = 0.6%float /\ ends_line text pos
              /\ within_tolerance encode text target pos)).
Proof.
  intros text target Hne Hover.
  destruct (@find_optimal_boundary_cases encode _ _ Hne Hover)
    as (approx & Hfind & Happrox & Hfit & Hcases).
  destruct (@window_bounds text _ Happrox) as (Hw & Hstart & Hstop).
  cbv zeta in Hcases, Hw, Hstart, Hstop.
  exists approx.
  destruct Hcases as [E | [(s & Hin & Hwithin & E)
                          | [(s & Hin & Hwithin & E)
                            | (s & Hin & Hwithin & E)]]].
  - exists approx, 0.5%float. repeat (split; [assumption || lia|]).
    left. auto.
  - destruct (@paragraph_match_lands _ _ _ _ Hstart Hstop Hin) as (Hpos & Hland).
    eexists. exists 1.0%float. split; [exact Hfind|]. split; [exact E|].
    split; [lia|]. split; [lia|]. right. left. auto.
  - destruct (@sentence_match_lands _ _ _ _ Hstart Hstop Hin) as (Hpos & Hland).
    eexists. exists 0.8%float. split; [exact Hfind|]. split; [exact E|].
    split; [lia|]. split; [lia|]. right. right. left. auto.
  - destruct (@line_match_lands _ _ _ _ Hstart Hstop Hin) as (Hpos & Hland).
    eexists. exists 0.6%float. split; [exact Hfind|]. split; [exact E|].
    split; [lia|]. split; [lia|]. right. right. right. auto.
Qed.

(** The prefix cut by [find_optimal_boundary] is an offset of the text and
    is within the budget plus the tolerance. *)
Lemma boundary_budget :
  forall text target,
    0 <= target ->
    exists pos score,
      find_optimal_boundary encode text target = Some (pos, score)
      /\ 0 <= pos <= len text
      /\ within_tolerance encode text target pos.
Proof.
  intros text target Htarget.
  pose proof (len_nonneg text) as Hlen.
  destruct text as [|c text'] eqn:Htext.
  { exists 0, 0.0%float. split; [reflexivity|].
    split; [unfold len; simpl; lia|].
    unfold within_tolerance. rewrite slice_to_0.
    change (count_tokens encode []) with 0. lia. }
  rewrite <- Htext in *.
  assert (Hne : text <> []) by (rewrite Htext; discriminate).
  destruct (Z_le_gt_dec (count_tokens encode text) target) as [Hfit | Hover].
  { exists (len text), 1.0%float.
    split; [apply find_optimal_boundary_whole; assumption|].
    split; [lia|]. unfold within_tolerance. rewrite slice_to_len. lia. }
  destruct (@boundary_search_outcome text target Hne ltac:(lia))
    as (approx & pos & score & _ & Hfob & Hpos & _ & Hcases).
  exists pos, score. split; [exact Hfob|]. split; [exact Hpos|].
  destruct Hcases as [(_ & _ & [-> | Hfit]) | [H | [H | H]]];
    try (destruct H as (_ & _ & H); exact H).
  - unfold within_tolerance. rewrite slice_to_0.
    change (count_tokens encode []) with 0. lia.
  - unfold within_tolerance. unfold fits in Hfit. lia.
Qed.

End BoundaryLandingFacts.

(** [find_optimal_boundary] always cuts at an offset of the text. *)
Lemma boundary_range :
  forall encode text target,
    exists pos score,
      find_optimal_boundary encode text target = Some (pos, score)
      /\ 0 <= pos <= len text.
Proof.
  intros encode text target.
  pose proof (len_nonneg text) as Hlen.
  destruct text as [|c text'] eqn:Htext.
  { exists 0, 0.0%float. split; [reflexivity | unfold len; simpl; lia]. }
  rewrite <- Htext in *.
  assert (Hne : text <> []) by (rewrite Htext; discriminate).
  destruct (Z_le_gt_dec (count_tokens encode text) target) as [Hfit | Hover].
  { exists (len text), 1.0%float.
    split; [apply find_optimal_boundary_whole; assumption | lia]. }
  destruct (@boundary_search_outcome encode text target Hne ltac:(lia))
    as (approx & pos & score & _ & Hfob & Hpos & _).
  eauto.
Qed.

(** * Further facts about the run of the loop *)

Lemma new_TextChunk_accepts :
  forall x, new_TextChunk x = Returned x ->
    0 <= chunk_id x /\ strip (text x) <> [] /\ 0 < token_count x
    /\ score_in_range (boundary_score x) = true.
Proof.
  intros x. unfold new_TextChunk, score_in_range.
  destruct (chunk_id x <? 0) eqn:Hid; [discriminate|].
  destruct (is_empty (strip (text x))) eqn:Htext; [discriminate|].
  destruct (token_count x <=? 0) eqn:Htok; [discriminate|].
  destruct (ltb (boundary_score x) 0 || ltb 1 (boundary_score x));
    [discriminate|].
  intros _. apply Z.ltb_ge in Hid. apply is_empty_false in Htext.
  apply Z.leb_gt in Htok. auto.
Qed.

Lemma interleaved_app :
  forall cs rest s tail,
    interleaved cs rest s -> interleaved cs (rest ++ tail) (s ++ tail).
Proof.
  intros cs rest s tail H. induction H as [rest | ws c cs rest s Hws H IH].
  - constructor.
  - rewrite <- !app_assoc. constructor; assumption.
Qed.

(** Whitespace put in front is absorbed by the first gap, or by the rest
    when there is no part. *)
Lemma interleaved_lead :
  forall cs wa l wb s w,
    interleaved cs (wa ++ l ++ wb) s ->
    forallb isspace wa = true -> forallb isspace w = true ->
    exists wa',
      forallb isspace wa' = true /\ interleaved cs (wa' ++ l ++ wb) (w ++ s).
Proof.
  intros cs wa l wb s w H Hwa Hw. inversion H; subst.
  - exists (w ++ wa). split; [rewrite forallb_app, Hw, Hwa; reflexivity|].
    rewrite <- app_assoc. constructor.
  - exists wa. split; [exact Hwa|].
    replace (w ++ ws ++ c ++ s0) with ((w ++ ws) ++ c ++ s0)
      by (rewrite <- app_assoc; reflexivity).
    constructor; [rewrite forallb_app, Hw; assumption | assumption].
Qed.

Section RunProperties.

Variable encode : str -> list Z.
Variable config : ChunkingConfig.

Lemma run_ids :
  forall remaining id pos more leftover,
    run encode config remaining id pos more leftover ->
    forall i c, nth_error more i = Some c -> chunk_id c = id + Z.of_nat i.
Proof.
  intros remaining id pos more leftover H.
  induction H as [|remaining id pos bp bs ov more leftover
                   Hblank Hfob Hchunk Hov Hnew Hrun IH]; intros i c Hnth.
  - destruct i; discriminate.
  - destruct i as [|i]; simpl in Hnth.
    + injection Hnth as <-. simpl. lia.
    + rewrite (IH i c Hnth). lia.
Qed.

(** What every chunk of a run satisfies by itself. *)
Lemma run_chunks :
  forall remaining id pos more leftover,
    run encode config remaining id pos more leftover ->
    forall c, In c more ->
      text c <> [] /\ strip (text c) = text c
      /\ token_count c = count_tokens encode (text c)
      /\ 0 < token_count c
      /\ end_position c = start_position c + len (text c)
      /\ score_in_range (boundary_score c) = true
      /\ 0 <= overlap_with_previous c <= len (text c)
      /\ (chunk_id c <= 0 \/ overlap_tokens config <= 0 ->
          overlap_with_previous c = 0).
Proof.
  intros remaining id pos more leftover H.
  induction H as [|remaining id pos bp bs ov more leftover
                   Hblank Hfob Hchunk Hov Hnew Hrun IH]; intros c Hin.
  - contradiction.
  - destruct Hin as [<- | Hin]; [|apply IH; exact Hin].
    destruct (new_TextChunk_accepts Hnew) as (_ & _ & Htok & Hscore).
    cbn [text token_count end_position start_position boundary_score
         overlap_with_previous chunk_id loop_chunk] in *.
    split; [apply is_empty_false; exact Hchunk|].
    split; [apply strip_strip|]. split; [reflexivity|].
    split; [exact Htok|]. split; [reflexivity|]. split; [exact Hscore|].
    unfold loop_overlap in Hov.
    destruct ((id >? 0) && (overlap_tokens config >? 0)) eqn:Hcond.
    + destruct (create_overlap_returns encode (strip (slice_to remaining bp))
                  (overlap_tokens config)) as (r & pre & Hr & Hpre).
      rewrite Hr in Hov. simpl in Hov. injection Hov as <-.
      apply andb_true_iff in Hcond. destruct Hcond as [H1 H2].
      apply Z.gtb_lt in H1, H2. split; [|lia].
      apply (f_equal (@length char)) in Hpre. rewrite length_app in Hpre.
      unfold len. lia.
    + injection Hov as <-. pose proof (len_nonneg (strip (slice_to remaining bp))).
      split; [lia | reflexivity].
Qed.

(** The positions of a run: they advance, and stay within the text the
    run was entered with. *)
Lemma run_positions :
  forall remaining id pos more leftover,
    run encode config remaining id pos more leftover ->
    (forall c, In c more ->
       pos <= start_position c /\ end_position c <= pos + len remaining)
    /\ (forall c, hd_error more = Some c -> start_position c = pos)
    /\ (forall i c d, nth_error more i = Some c ->
          nth_error more (S i) = Some d ->
          end_position c <= start_position d).
Proof.
  intros remaining id pos more leftover H.
  induction H as [|remaining id pos bp bs ov more leftover
                   Hblank Hfob Hchunk Hov Hnew Hrun (IHin & IHhd & IHnth)].
  - split; [intros c []|]. split; [discriminate|].
    intros [|i] c d Hc; discriminate.
  - destruct (boundary_range encode remaining (get_effective_chunk_size config))
      as (bp' & bs' & Hfob' & Hbp).
    rewrite Hfob in Hfob'. injection Hfob' as <- <-.
    assert (Hchunk_len : len (strip (slice_to remaining bp)) <= bp).
    { pose proof (length_strip (slice_to remaining bp)) as Hs.
      unfold slice_to in *. rewrite norm_index_id in * by lia.
      rewrite length_firstn in Hs. unfold len in *. lia. }
    assert (Hrest_len :
              len (strip (slice_from remaining bp)) <= len remaining - bp).
    { pose proof (length_strip (slice_from remaining bp)) as Hs.
      unfold slice_from in *. rewrite norm_index_id in * by lia.
      rewrite length_skipn in Hs. unfold len in *. lia. }
    split; [|split].
    + intros c [<- | Hin].
      * cbn [start_position end_position loop_chunk]. lia.
      * destruct (IHin c Hin). lia.
    + intros c [= <-]. reflexivity.
    + intros [|i] c d Hc Hd; simpl in Hc, Hd.
      * injection Hc as <-. cbn [end_position loop_chunk].
        destruct more as [|d' more']; [discriminate|].
        injection Hd as ->. rewrite (IHhd d eq_refl). lia.
      * apply (IHnth i c d Hc Hd).
Qed.

(** The text a run was entered with is its chunks in order, separated by
    whitespace, followed by the leftover between whitespace. *)
Lemma run_interleaved :
  forall remaining id pos more leftover,
    run encode config remaining id pos more leftover ->
    exists wa wb,
      forallb isspace wa = true /\ forallb isspace wb = true
      /\ interleaved (map text more) (wa ++ leftover ++ wb) remaining.
Proof.
  intros remaining id pos more leftover H.
  induction H as [|remaining id pos bp bs ov more leftover
                   Hblank Hfob Hchunk Hov Hnew Hrun (wa & wb & Hwa & Hwb & IH)].
  - exists [], []. repeat split. simpl. rewrite app_nil_r. constructor.
  - destruct (strip_spec (slice_to remaining bp)) as (w1 & w2 & E1 & Hw1 & Hw2).
    destruct (strip_spec (slice_from remaining bp)) as (w3 & w4 & E2 & Hw3 & Hw4).
    apply (interleaved_app w4) in IH.
    destruct (@interleaved_lead (map text more) wa leftover (wb ++ w4)
                (strip (slice_from remaining bp) ++ w4) (w2 ++ w3))
      as (wa' & Hwa' & IH').
    { rewrite <- !app_assoc in IH. exact IH. }
    { exact Hwa. }
    { rewrite forallb_app, Hw2, Hw3. reflexivity. }
    exists wa', (wb ++ w4).
    split; [exact Hwa'|]. split; [rewrite forallb_app, Hwb, Hw4; reflexivity|].
    assert (E : remaining
                = w1 ++ strip (slice_to remaining bp)
                    ++ ((w2 ++ w3) ++ strip (slice_from remaining bp) ++ w4)).
    { rewrite <- (firstn_skipn (Z.to_nat (norm_index (len remaining) bp))
                    remaining) at 1.
      fold (slice_to remaining bp). fold (slice_from remaining bp).
      rewrite E1 at 1. rewrite E2 at 1. rewrite <- !app_assoc. reflexivity. }
    rewrite E at 2. cbn [map text loop_chunk].
    constructor; assumption.
Qed.

(** With a tokenizer for which trimming adds no token, every chunk of a
    run is within the effective size plus the tolerance. *)
Lemma run_token_bound :
  trim_monotone encode -> 0 <= get_effective_chunk_size config ->
  forall remaining id pos more leftover,
    run encode config remaining id pos more leftover ->
    forall c, In c more ->
      token_count c <= get_effective_chunk_size config + 50.
Proof.
  intros Htrim Htarget remaining id pos more leftover H.
  induction H as [|remaining id pos bp bs ov more leftover
                   Hblank Hfob Hchunk Hov Hnew Hrun IH]; intros c Hin.
  - contradiction.
  - destruct Hin as [<- | Hin]; [|apply IH; exact Hin].
    destruct (boundary_budget encode remaining Htarget)
      as (bp' & bs' & Hfob' & _ & Hwithin).
    rewrite Hfob in Hfob'. injection Hfob' as <- <-.
    cbn [token_count loop_chunk]. unfold within_tolerance in Hwithin.
    pose proof (Htrim (slice_to remaining bp)). lia.
Qed.

End RunProperties.

(** * Runs that reach the end of the text *)

Lemma lstrip_idempotent : forall s, lstrip (lstrip s) = lstrip s.
Proof.
  intros s. destruct (lstrip_spec s) as (_ & _ & _ & Hhd).
  destruct (lstrip s) as [|c t]; [reflexivity|].
  apply lstrip_fixed. exact Hhd.
Qed.

Lemma lstrip_strip : forall s, lstrip (strip s) = strip s.
Proof. intros s. unfold strip. apply lstrip_idempotent. Qed.

(** A text that is not blank and has no whitespace in front starts with a
    character that is not whitespace. *)
Lemma lstrip_fixed_head :
  forall s, lstrip s = s -> is_empty (strip s) = false ->
    exists c t, s = c :: t /\ isspace c = false.
Proof.
  intros [|c t] Hfix Hblank; [discriminate|].
  exists c, t. split; [reflexivity|].
  destruct (isspace c) eqn:Hc; [|reflexivity].
  simpl in Hfix. rewrite Hc in Hfix.
  pose proof (length_lstrip t) as Hlen. rewrite Hfix in Hlen.
  simpl in Hlen. lia.
Qed.

Lemma char_at_nonneg :
  forall text i c, char_at text i = Some c -> 0 <= i.
Proof.
  intros text i c H. unfold char_at in H.
  destruct (i <? 0) eqn:E; [discriminate | apply Z.ltb_ge in E; exact E].
Qed.

Section CompleteRuns.

Variable encode : str -> list Z.
Variable config : ChunkingConfig.

Hypothesis Hmono : forall s, prefix_monotone encode s.
Hypothesis Hchar :
  forall c, isspace c = false ->
    count_tokens encode [c] <= get_effective_chunk_size config.

(** Under the monotonicity precondition the approximate offset is at
    least every offset that fits. *)
Lemma find_token_boundary_above :
  forall text target r p,
    target < count_tokens encode text ->
    find_token_boundary encode text target = Some r ->
    0 <= p <= len text -> fits encode text target p -> p <= r.
Proof.
  intros text target r p Hover Hfind Hp Hfit.
  unfold find_token_boundary in Hfind.
  destruct (is_empty text) eqn:He.
  { apply is_empty_true in He. subst text. simpl in Hover.
    unfold fits in Hfit. unfold len in Hp. simpl in Hp.
    replace p with 0 in Hfit by lia. rewrite slice_to_0 in Hfit.
    simpl in Hfit. lia. }
  apply Z.leb_gt in Hover. rewrite Hover in Hfind.
  pose proof (len_nonneg text).
  apply (token_boundary_loop_maximal (Hmono text)) in Hfind; try lia.
  destruct Hfind as (_ & Hmax & _). apply Hmax; assumption.
Qed.

(** A text that starts with a character that is not whitespace is cut
    after at least one character, so the extraction is not empty. *)
Lemma extraction_nonempty :
  forall remaining bp bs,
    lstrip remaining = remaining ->
    is_empty (strip remaining) = false ->
    find_optimal_boundary encode remaining (get_effective_chunk_size config)
      = Some (bp, bs) ->
    is_empty (strip (slice_to remaining bp)) = false.
Proof.
  intros remaining bp bs Hfix Hblank Hfob.
  destruct (@lstrip_fixed_head remaining Hfix Hblank) as (c & t & E & Hc).
  assert (Hne : remaining <> []) by (rewrite E; discriminate).
  assert (Hlen : 1 <= len remaining)
    by (rewrite E; unfold len; simpl; lia).
  assert (Hbp : 1 <= bp <= len remaining).
  { destruct (Z_le_gt_dec (count_tokens encode remaining)
                (get_effective_chunk_size config)) as [Hfit | Hover].
    - rewrite (@find_optimal_boundary_whole encode _ _ Hne Hfit) in Hfob.
      injection Hfob as <- <-. lia.
    - destruct (@boundary_search_outcome encode remaining
                  (get_effective_chunk_size config) Hne ltac:(lia))
        as (approx & pos & score & Hfind & Hfob' & Hpos & _ & Hcases).
      rewrite Hfob in Hfob'. injection Hfob' as <- <-.
      split; [|lia].
      destruct Hcases as [(_ & -> & _) | [(_ & (_ & H) & _)
                         | [(_ & (q & p & Hq & Hqp & _) & _) | (_ & H & _)]]].
      + apply (@find_token_boundary_above remaining
                 (get_effective_chunk_size config) approx 1);
          [lia | exact Hfind | lia |].
        unfold fits. rewrite E. unfold slice_to.
        rewrite norm_index_id by (unfold len; simpl; lia).
        simpl. apply Hchar. exact Hc.
      + apply char_at_nonneg in H. lia.
      + lia.
      + apply char_at_nonneg in H. lia. }
  apply is_empty_false. rewrite strip_nil_iff.
  unfold slice_to. rewrite norm_index_id by lia. rewrite E.
  destruct (Z.to_nat bp) as [|n] eqn:En; [lia|].
  simpl. rewrite Hc. discriminate.
Qed.

(** Such a run stops only when nothing but whitespace is left. *)
Lemma run_reaches_end :
  forall remaining id pos more leftover,
    run encode config remaining id pos more leftover ->
    lstrip remaining = remaining ->
    stops encode config leftover ->
    is_empty (strip leftover) = true.
Proof.
  intros remaining id pos more leftover H.
  induction H as [|remaining id pos bp bs ov more leftover
                   Hblank Hfob Hchunk Hov Hnew Hrun IH]; intros Hfix Hstop.
  - destruct Hstop as [Hb | (bp & bs & Hfob & Hempty)]; [exact Hb|].
    destruct (is_empty (strip remaining)) eqn:Hblank; [reflexivity|].
    rewrite (@extraction_nonempty _ _ _ Hfix Hblank Hfob) in Hempty.
    discriminate.
  - apply IH; [apply lstrip_strip | exact Hstop].
Qed.

End CompleteRuns.

(** In a run that reaches the end, the kinds follow the positions. *)
Lemma run_kinds_at_end :
  forall encode config remaining id pos more leftover,
    run encode config remaining id pos more leftover ->
    0 <= id -> is_empty (strip leftover) = true ->
    forall i c, nth_error more i = Some c ->
      chunk_type c
      = if id + Z.of_nat i =? 0 then FIRST
        else if Nat.eqb (S i) (length more) then FINAL else MIDDLE.
Proof.
  intros encode config remaining id pos more leftover H.
  induction H as [|remaining id pos bp bs ov more leftover
                   Hblank Hfob Hchunk Hov Hnew Hrun IH];
    intros Hid Hend i c Hnth.
  - destruct i; discriminate.
  - destruct i as [|i]; simpl in Hnth.
    + injection Hnth as <-. cbn [chunk_type loop_chunk].
      replace (id + Z.of_nat 0) with id by lia.
      destruct (id =? 0); [reflexivity|].
      inversion Hrun; subst.
      * simpl. rewrite strip_strip in Hend. rewrite Hend. reflexivity.
      * simpl. match goal with
               | Hb : is_empty (strip (strip _)) = false |- _ =>
                   rewrite strip_strip in Hb; rewrite Hb
               end. reflexivity.
    + rewrite (IH ltac:(lia) Hend i c Hnth).
      replace (id + 1 + Z.of_nat i) with (id + Z.of_nat (S i)) by lia.
      reflexivity.
Qed.

(** In a run, the chunk built with identifier 0 is [FIRST] and no other
    chunk is. *)
Lemma run_first_kind :
  forall encode config remaining id pos more leftover,
    run encode config remaining id pos more leftover ->
    0 <= id ->
    forall i c, nth_error more i = Some c ->
      (chunk_type c = FIRST <-> id + Z.of_nat i = 0).
Proof.
  intros encode config remaining id pos more leftover H.
  induction H as [|remaining id pos bp bs ov more leftover
                   Hblank Hfob Hchunk Hov Hnew Hrun IH];
    intros Hid i c Hnth.
  - destruct i; discriminate.
  - destruct i as [|i]; simpl in Hnth.
    + injection Hnth as <-. cbn [chunk_type loop_chunk].
      destruct (Z.eqb_spec id 0) as [-> | Hne]; [split; [lia | reflexivity]|].
      split; [|lia].
      destruct (is_empty (strip (slice_from remaining bp))); discriminate.
    + rewrite (IH ltac:(lia) i c Hnth). lia.
Qed.

(** * Facts about the helpers over a finished sequence *)

Lemma in_combine_seq :
  forall (A : Type) (l : list A) a i x,
    In (i, x) (combine (seq a (length l)) l)
    <-> (a <= i)%nat /\ nth_error l (i - a) = Some x.
Proof.
  intros A l. induction l as [|y l IH]; intros a i x; simpl.
  - split; [contradiction|]. intros [_ H]. destruct (i - a)%nat; discriminate.
  - rewrite IH. split.
    + intros [[= <- <-] | [Hle Hnth]].
      * split; [lia|]. rewrite Nat.sub_diag. reflexivity.
      * split; [lia|]. replace (i - a)%nat with (S (i - S a)) by lia.
        exact Hnth.
    + intros [Hle Hnth]. destruct (i - a)%nat as [|k] eqn:E.
      * left. injection Hnth as <-. f_equal. lia.
      * right. split; [lia|]. replace (i - S a)%nat with k by lia.
        exact Hnth.
Qed.

Lemma ChunkType_eqb_eq :
  forall a b, ChunkType_eqb a b = true <-> a = b.
Proof. intros [] []; simpl; split; congruence. Qed.

Section ValidateFacts.

Variable config : ChunkingConfig.

(** An issue of [validate_chunks] is an issue of the checks on one chunk
    at its index. *)
Lemma in_validate_chunks :
  forall chunks x,
    In x (validate_chunks config chunks)
    <-> exists i c, nth_error chunks i = Some c
          /\ In x (validate_chunk config (length chunks) i c).
Proof.
  intros chunks x. unfold validate_chunks. rewrite in_concat. split.
  - intros (l & Hl & Hx). apply in_map_iff in Hl.
    destruct Hl as ([i c] & <- & Hin). apply in_combine_seq in Hin.
    destruct Hin as [_ Hnth]. rewrite Nat.sub_0_r in Hnth. eauto.
  - intros (i & c & Hnth & Hx).
    exists (validate_chunk config (length chunks) i c). split; [|exact Hx].
    apply in_map_iff. exists (i, c). split; [reflexivity|].
    apply in_combine_seq. rewrite Nat.sub_0_r. split; [lia | exact Hnth].
Qed.

(** The four checks on one chunk, one issue each. *)
Lemma in_validate_chunk :
  forall n i c x,
    In x (validate_chunk config n i c)
    <-> (x = ExceedsTokenLimit i (token_count c) (max_chunk_tokens config)
         /\ max_chunk_tokens config < token_count c)
        \/ (x = FirstNotFIRST (chunk_type c)
            /\ i = 0%nat /\ chunk_type c <> FIRST)
        \/ (x = LastNotFINAL (chunk_type c)
            /\ i = (n - 1)%nat /\ chunk_type c <> FINAL /\ (1 < n)%nat)
        \/ (x = EmptyText i /\ strip (text c) = []).
Proof.
  intros n i c x. unfold validate_chunk. rewrite !in_app_iff.
  assert (H1 : In x (if token_count c >? max_chunk_tokens config
                     then [ExceedsTokenLimit i (token_count c)
                             (max_chunk_tokens config)] else [])
               <-> x = ExceedsTokenLimit i (token_count c)
                         (max_chunk_tokens config)
                   /\ max_chunk_tokens config < token_count c).
  { destruct (token_count c >? max_chunk_tokens config) eqn:E.
    - apply Z.gtb_lt in E. simpl. split; [intros [<- | []]; auto|].
      intros [-> _]. auto.
    - rewrite Z.gtb_ltb in E. apply Z.ltb_ge in E. simpl.
      split; [contradiction | intros [_ H]; lia]. }
  assert (H2 : In x (if Nat.eqb i 0
                        && negb (ChunkType_eqb (chunk_type c) FIRST)
                     then [FirstNotFIRST (chunk_type c)] else [])
               <-> x = FirstNotFIRST (chunk_type c)
                   /\ i = 0%nat /\ chunk_type c <> FIRST).
  { destruct (Nat.eqb_spec i 0) as [-> | Hi]; simpl.
    - destruct (ChunkType_eqb (chunk_type c) FIRST) eqn:E; simpl.
      + apply ChunkType_eqb_eq in E. split; [contradiction|].
        intros (_ & _ & H). congruence.
      + split; [intros [<- | []]|intros (-> & _); auto].
        repeat split. intros H. apply ChunkType_eqb_eq in H. congruence.
    - split; [contradiction | intros (_ & H & _); congruence]. }
  assert (H3 : In x (if Nat.eqb i (n - 1)
                        && negb (ChunkType_eqb (chunk_type c) FINAL)
                        && Nat.ltb 1 n
                     then [LastNotFINAL (chunk_type c)] else [])
               <-> x = LastNotFINAL (chunk_type c)
                   /\ i = (n - 1)%nat /\ chunk_type c <> FINAL
                   /\ (1 < n)%nat).
  { destruct (Nat.eqb_spec i (n - 1)) as [Hi | Hi]; simpl.
    - destruct (ChunkType_eqb (chunk_type c) FINAL) eqn:E; simpl.
      + apply ChunkType_eqb_eq in E. split; [contradiction|].
        intros (_ & _ & H & _). congruence.
      + destruct (Nat.ltb_spec 1 n) as [Hn | Hn]; simpl.
        * split; [intros [<- | []]|intros (-> & _); auto].
          repeat split; try assumption.
          intros H. apply ChunkType_eqb_eq in H. congruence.
        * split; [contradiction | intros (_ & _ & _ & H); lia].
    - split; [contradiction | intros (_ & H & _); congruence]. }
  assert (H4 : In x (if is_empty (strip (text c)) then [EmptyText i] else [])
               <-> x = EmptyText i /\ strip (text c) = []).
  { destruct (is_empty (strip (text c))) eqn:E.
    - apply is_empty_true in E. simpl.
      split; [intros [<- | []]; auto | intros [-> _]; auto].
    - apply is_empty_false in E. simpl.
      split; [contradiction | intros [_ H]; congruence]. }
  rewrite H1, H2, H3, H4. tauto.
Qed.

End ValidateFacts.

(** ** Sorting by identifier *)

Lemma insert_by_id_perm :
  forall c l, Permutation (insert_by_id c l) (c :: l).
Proof.
  intros c l. induction l as [|d l IH]; simpl; [reflexivity|].
  destruct (chunk_id c <=? chunk_id d); [reflexivity|].
  rewrite IH. apply perm_swap.
Qed.

Lemma sorted_by_id_perm :
  forall l, Permutation (sorted_by_id l) l.
Proof.
  induction l as [|c l IH]; simpl; [reflexivity|].
  rewrite insert_by_id_perm. constructor. exact IH.
Qed.

Lemma insert_by_id_sorted :
  forall c l, StronglySorted id_le l -> StronglySorted id_le (insert_by_id c l).
Proof.
  intros c l H. induction H as [|d l Hs IH Hd]; simpl.
  - repeat constructor.
  - destruct (chunk_id c <=? chunk_id d) eqn:E.
    + apply Z.leb_le in E. constructor; [constructor; assumption|].
      constructor; [exact E|].
      rewrite Forall_forall in *. intros x Hx. specialize (Hd x Hx).
      unfold id_le in *. lia.
    + apply Z.leb_gt in E. constructor; [exact IH|].
      rewrite Forall_forall in *. intros x Hx.
      apply (Permutation_in _ (insert_by_id_perm c l)) in Hx.
      destruct Hx as [<- | Hx]; [unfold id_le; lia | apply Hd; exact Hx].
Qed.

Lemma sorted_by_id_sorted :
  forall l, StronglySorted id_le (sorted_by_id l).
Proof.
  induction l as [|c l IH]; simpl; [constructor|].
  apply insert_by_id_sorted. exact IH.
Qed.

(** A list sorted by identifier is the only sorted arrangement of a list
    with strictly increasing identifiers. *)
Lemma sorted_unique :
  forall l2 l1,
    StronglySorted id_lt l2 -> StronglySorted id_le l1 ->
    Permutation l1 l2 -> l1 = l2.
Proof.
  induction l2 as [|x l2 IH]; intros l1 H2 H1 Hperm.
  - apply Permutation_nil. symmetry. exact Hperm.
  - destruct l1 as [|y l1];
      [apply Permutation_nil_cons in Hperm; contradiction|].
    inversion H2 as [|? ? H2' Hx]; subst.
    inversion H1 as [|? ? H1' Hy]; subst.
    rewrite Forall_forall in Hx, Hy.
    assert (y = x).
    { assert (Hyin : In y (x :: l2))
        by (apply (Permutation_in _ Hperm); left; reflexivity).
      assert (Hxin : In x (y :: l1))
        by (apply (Permutation_in _ (Permutation_sym Hperm)); left;
            reflexivity).
      destruct Hyin as [E | Hyin]; [congruence|].
      destruct Hxin as [E | Hxin]; [congruence|].
      specialize (Hx y Hyin). specialize (Hy x Hxin).
      unfold id_lt, id_le in *. lia. }
    subst y. f_equal. apply IH; try assumption.
    apply Permutation_cons_inv with x. exact Hperm.
Qed.

Lemma increasing_ids_sorted :
  forall (l : list TextChunk) a,
    (forall i c, nth_error l i = Some c -> chunk_id c = a + Z.of_nat i) ->
    StronglySorted id_lt l.
Proof.
  induction l as [|c l IH]; intros a Hids; constructor.
  - apply (IH (a + 1)). intros i d Hd.
    rewrite (Hids (S i) d Hd). lia.
  - rewrite Forall_forall. intros d Hd.
    destruct (In_nth_error _ _ Hd) as (i & Hi).
    unfold id_lt. rewrite (Hids O c eq_refl), (Hids (S i) d Hi). lia.
Qed.

(** * Further facts used by the properties below *)

Lemma new_ChunkingConfig_valid :
  forall m o name config,
    new_ChunkingConfig m o name = Returned config ->
    max_chunk_tokens config = m /\ overlap_tokens config = o
    /\ 0 <= o < m.
Proof.
  intros m o name config. unfold new_ChunkingConfig.
  destruct (m <=? 0) eqn:Hm; [discriminate|]. apply Z.leb_gt in Hm.
  destruct (o <? 0) eqn:Ho; [discriminate|]. apply Z.ltb_ge in Ho.
  destruct (o >=? m) eqn:Hom; [discriminate|].
  rewrite Z.geb_leb in Hom. apply Z.leb_gt in Hom.
  intros [= <-]. simpl. lia.
Qed.

Lemma trim_monotone_char_tokenizer : trim_monotone char_tokenizer.
Proof.
  intros s. rewrite !count_tokens_char_tokenizer.
  pose proof (length_strip s). unfold len. lia.
Qed.

Lemma interleaved_length :
  forall cs rest s,
    interleaved cs rest s ->
    (length (concat cs) + length rest <= length s)%nat.
Proof.
  intros cs rest s H. induction H as [rest | ws c cs rest s Hws H IH].
  - simpl. lia.
  - simpl. rewrite !length_app in *. lia.
Qed.

Lemma nonempty_parts_count :
  forall cs : list str,
    (forall c, In c cs -> c <> []) -> (length cs <= length (concat cs))%nat.
Proof.
  induction cs as [|c cs IH]; intros Hne; simpl; [lia|].
  rewrite length_app. specialize (IH (fun d Hd => Hne d (or_intror Hd))).
  assert (c <> []) by (apply Hne; left; reflexivity).
  destruct c; [congruence | simpl; lia].
Qed.

(** When the text has more tokens than the budget, [create_overlap]
    returns fewer characters than the text has. *)
Lemma create_overlap_short :
  forall encode text overlap,
    text <> [] -> 0 < overlap -> overlap < count_tokens encode text ->
    exists x,
      create_overlap encode text overlap = Some x
      /\ (length x < length text)%nat.
Proof.
  intros encode text overlap Hne Hpos Hover.
  assert (Hlen : 0 < len text)
    by (unfold len; destruct text; [congruence | simpl; lia]).
  destruct (find_token_boundary_returns encode text overlap)
    as (r & Hfind & Hr).
  assert (Hshort : r < len text).
  { destruct (Z.eq_dec r (len text)) as [-> | Hneq]; [|lia]. exfalso.
    unfold find_token_boundary in Hfind.
    apply is_empty_false in Hne. rewrite Hne in Hfind.
    pose proof Hover as Hgt. apply Z.leb_gt in Hgt. rewrite Hgt in Hfind.
    destruct (@token_boundary_loop_returns encode text overlap
                (S (length text)) 0 (len text) 0) as (r & Hr' & Hcase).
    { unfold len. lia. }
    rewrite Hfind in Hr'. injection Hr' as <-.
    destruct Hcase as [E | [_ Hfit]]; [lia|].
    unfold fits in Hfit. rewrite slice_to_len in Hfit. lia. }
  unfold create_overlap.
  apply is_empty_false in Hne. rewrite Hne.
  replace (overlap <=? 0) with false by (symmetry; apply Z.leb_gt; lia).
  simpl orb. cbv iota. rewrite Hfind.
  replace (r >=? len text) with false
    by (symmetry; rewrite Z.geb_leb; apply Z.leb_gt; lia).
  set (overlap_text := if r >? 0 then slice_from text (- r) else []).
  assert (Hov : (length overlap_text < length text)%nat).
  { subst overlap_text. destruct (r >? 0) eqn:E.
    - apply Z.gtb_lt in E. unfold slice_from, norm_index.
      replace (- r <? 0) with true by (symmetry; apply Z.ltb_lt; lia).
      rewrite length_skipn. unfold len in *. lia.
    - unfold len in Hlen. simpl. lia. }
  destruct (last_pieces_suffix overlap_text
              (Re.finditer Re.sentence_end overlap_text) 0) as (k & Hlast).
  unfold Re.split. rewrite Hlast.
  assert (Hk : (length (skipn k overlap_text) <= length overlap_text)%nat)
    by (rewrite length_skipn; lia).
  destruct (_ >? 1); [destruct (is_empty (skipn k overlap_text))|];
    eexists; (split; [reflexivity | lia]).
Qed.

(** The checks of [validate_chunks] pass on a sequence that meets them. *)
Lemma validate_chunks_no_issue :
  forall config chunks,
    (forall c, In c chunks ->
       token_count c <= max_chunk_tokens config /\ strip (text c) <> []) ->
    (forall c, nth_error chunks 0 = Some c -> chunk_type c = FIRST) ->
    ((1 < length chunks)%nat ->
     forall c, nth_error chunks (length chunks - 1) = Some c ->
       chunk_type c = FINAL) ->
    validate_chunks config chunks = [].
Proof.
  intros config chunks Hall Hfirst Hlast.
  destruct (validate_chunks config chunks) as [|x l] eqn:E; [reflexivity|].
  exfalso.
  assert (Hin : In x (validate_chunks config chunks))
    by (rewrite E; left; reflexivity).
  apply in_validate_chunks in Hin. destruct Hin as (i & c & Hnth & Hx).
  apply in_validate_chunk in Hx.
  pose proof (nth_error_In _ _ Hnth) as Hc.
  destruct Hx as [(_ & H) | [(_ & -> & H) | [(_ & -> & H & Hn) | (_ & H)]]].
  - destruct (Hall c Hc). lia.
  - apply H. apply Hfirst. exact Hnth.
  - apply H. apply (Hlast Hn). exact Hnth.
  - destruct (Hall c Hc). congruence.
Qed.

(** A [FINAL] chunk closes the run: nothing is left after it. *)
Lemma run_final_reaches_end :
  forall encode config remaining id pos more leftover,
    run encode config remaining id pos more leftover ->
    (exists c, In c more /\ chunk_type c = FINAL) ->
    is_empty (strip leftover) = true.
Proof.
  intros encode config remaining id pos more leftover H.
  induction H as [|remaining id pos bp bs ov more leftover
                   Hblank Hfob Hchunk Hov Hnew Hrun IH];
    intros (c & Hin & Hfinal).
  - contradiction.
  - destruct Hin as [<- | Hin]; [|apply IH; eauto].
    cbn [chunk_type loop_chunk] in Hfinal.
    destruct (id =? 0); [discriminate|].
    destruct (is_empty (strip (slice_from remaining bp))) eqn:Hafter;
      [|discriminate].
    inversion Hrun; subst.
    + rewrite strip_strip. exact Hafter.
    + match goal with
      | Hb : is_empty (strip (strip _)) = false |- _ =>
          rewrite strip_strip, Hafter in Hb; discriminate Hb
      end.
Qed.

Lemma non_space_app :
  forall a b, non_space (a ++ b) = non_space a ++ non_space b.
Proof. intros a b. apply filter_app. Qed.

Lemma non_space_blank :
  forall w, forallb isspace w = true -> non_space w = [].
Proof.
  induction w as [|c w IH]; simpl; [reflexivity|].
  intros H. apply andb_true_iff in H. destruct H as [Hc Hw].
  rewrite Hc. simpl. apply IH. exact Hw.
Qed.

Lemma non_space_join :
  forall parts,
    non_space (join [SPACE] parts) = concat (map non_space parts).
Proof.
  induction parts as [|p parts IH]; [reflexivity|].
  destruct parts as [|q parts].
  - simpl. rewrite app_nil_r. reflexivity.
  - change (join [SPACE] (p :: q :: parts))
      with (p ++ [SPACE] ++ join [SPACE] (q :: parts)).
    rewrite !non_space_app, IH. reflexivity.
Qed.

Lemma non_space_interleaved :
  forall parts rest s,
    interleaved parts rest s ->
    non_space s = concat (map non_space parts) ++ non_space rest.
Proof.
  intros parts rest s H. induction H as [rest | ws c cs rest s Hws H IH].
  - reflexivity.
  - rewrite !non_space_app, (non_space_blank _ Hws), IH. simpl.
    rewrite app_assoc. reflexivity.
Qed.

(** Chunks whose identifiers count up from 0 are already in the order
    [combine_chunks] gives them. *)
Lemma combine_chunks_in_order :
  forall chunks : list TextChunk,
    (forall i c, nth_error chunks i = Some c -> chunk_id c = Z.of_nat i) ->
    combine_chunks chunks = join [SPACE] (map text chunks).
Proof.
  intros chunks Hids.
  assert (Hsorted : sorted_by_id chunks = chunks).
  { apply sorted_unique.
    - apply (increasing_ids_sorted chunks 0). intros i c Hnth.
      rewrite (Hids i c Hnth). reflexivity.
    - apply sorted_by_id_sorted.
    - apply sorted_by_id_perm. }
  unfold combine_chunks. destruct chunks; [reflexivity|].
  rewrite Hsorted. reflexivity.
Qed.

(** * Further properties *)

(** ** Token manager *)

(** X1: for every tokenizer, monotone or not, and every target that is
    not negative, [find_token_boundary] returns an offset of the text
    whose prefix has at most [target] tokens. *)
Theorem find_token_boundary_within_budget :
  forall encode text target,
    0 <= target ->
    exists r,
      find_token_boundary encode text target = Some r
      /\ 0 <= r <= len text
      /\ count_tokens encode (slice_to text r) <= target.
Proof.
  intros encode text target Htarget.
  destruct (find_token_boundary_returns encode text target)
    as (r & Hfind & Hr).
  exists r. split; [exact Hfind|]. split; [exact Hr|].
  unfold find_token_boundary in Hfind.
  destruct (is_empty text) eqn:He.
  { injection Hfind as <-. rewrite slice_to_0. simpl. exact Htarget. }
  destruct (count_tokens encode text <=? target) eqn:Hc.
  { injection Hfind as <-. rewrite slice_to_len. apply Z.leb_le. exact Hc. }
  destruct (@token_boundary_loop_returns encode text target
              (S (length text)) 0 (len text) 0) as (r' & Hr' & Hcase).
  { unfold len. lia. }
  rewrite Hfind in Hr'. injection Hr' as <-.
  destruct Hcase as [-> | [_ Hfit]]; [|exact Hfit].
  rewrite slice_to_0. simpl. exact Htarget.
Qed.

Lemma find_token_boundary_within_budget_witness :
  exists r,
    find_token_boundary utf8_tokenizer [97; 233; 98; 233]%N 4 = Some r
    /\ 0 <= r <= len [97; 233; 98; 233]%N
    /\ count_tokens utf8_tokenizer (slice_to [97; 233; 98; 233]%N r) <= 4.
Proof.
  apply (@find_token_boundary_within_budget utf8_tokenizer
           [97; 233; 98; 233]%N 4).
  lia.
Defined.

(** X6: for a proper suffix of the text, [calculate_overlap_tokens] with
    the length of the suffix is the token count of the suffix; with the
    length of the whole text it is 0. *)
Theorem calculate_overlap_tokens_suffix :
  forall encode pre x,
    calculate_overlap_tokens encode (pre ++ x) (len x)
    = if is_empty pre then 0 else count_tokens encode x.
Proof.
  intros encode pre x. unfold calculate_overlap_tokens.
  destruct pre as [|c pre]; simpl is_empty; cbv iota.
  - simpl app. replace (len x >=? len x) with true
      by (symmetry; apply Z.geb_le; lia).
    rewrite orb_true_r. reflexivity.
  - destruct x as [|d x].
    + reflexivity.
    + replace (len (d :: x) <=? 0) with false
        by (symmetry; apply Z.leb_gt; unfold len; simpl; lia).
      replace (len (d :: x) >=? len ((c :: pre) ++ d :: x)) with false
        by (symmetry; rewrite Z.geb_leb; apply Z.leb_gt; unfold len;
            rewrite length_app; simpl; lia).
      simpl orb. cbv iota. f_equal.
      unfold slice_from, norm_index.
      replace (- len (d :: x) <? 0) with true
        by (symmetry; apply Z.ltb_lt; unfold len; simpl; lia).
      replace (Z.to_nat (Z.max 0 (len ((c :: pre) ++ d :: x) + - len (d :: x))))
        with (length (c :: pre))
        by (unfold len; rewrite length_app; lia).
      rewrite skipn_app, skipn_all, Nat.sub_diag. reflexivity.
Qed.

(** ** Boundary optimizer *)

(** X2: for every text and every target that is not negative,
    [find_optimal_boundary] cuts at an offset of the text whose prefix has
    at most [target + 50] tokens, with a score in [0, 1]. *)
Theorem find_optimal_boundary_within_tolerance :
  forall encode text target,
    0 <= target ->
    exists pos score,
      find_optimal_boundary encode text target = Some (pos, score)
      /\ 0 <= pos <= len text
      /\ count_tokens encode (slice_to text pos) <= target + 50
      /\ score_in_range score = true.
Proof.
  intros encode text target Htarget.
  destruct (boundary_budget encode text Htarget)
    as (pos & score & Hfob & Hpos & Hwithin).
  destruct (find_optimal_boundary_returns encode text target)
    as (pos' & score' & Hfob' & _ & Hscore).
  rewrite Hfob in Hfob'. injection Hfob' as <- <-.
  exists pos, score. auto.
Qed.

Lemma find_optimal_boundary_within_tolerance_witness :
  exists pos score,
    find_optimal_boundary char_tokenizer sample_text 16 = Some (pos, score)
    /\ 0 <= pos <= len sample_text
    /\ count_tokens char_tokenizer (slice_to sample_text pos) <= 16 + 50
    /\ score_in_range score = true.
Proof.
  apply (@find_optimal_boundary_within_tolerance char_tokenizer sample_text 16).
  lia.
Defined.

(** X3: on a text with more tokens than the target,
    [find_optimal_boundary] cuts within the search window of the
    approximate offset ([min(500, len(text) // 10)] on either side), and
    its score tells where: 0.5 at the approximate offset itself, 1.0 right
    after two line feeds, 0.8 right after a sentence punctuation followed
    by whitespace only, 0.6 right after a line feed; in the last three
    cases the prefix is within [target + 50] tokens. *)
Theorem find_optimal_boundary_lands :
  forall encode text target,
    text <> [] -> target < count_tokens encode text ->
    exists approx pos score,
      find_token_boundary encode text target = Some approx
      /\ find_optimal_boundary encode text target = Some (pos, score)
      /\ 0 <= pos <= len text
      /\ approx - Z.min 500 (len text / 10) <= pos
           <= approx + Z.min 500 (len text / 10)
      /\ ((score = 0.5%float /\ pos = approx)
          \/ (score = 1.0%float /\ ends_paragraph text pos
              /\ within_tolerance encode text target pos)
          \/ (score = 0.8%float /\ ends_sentence text pos
              /\ within_tolerance encode text target pos)
          \/ (score = 0.6%float /\ ends_line text pos
              /\ within_tolerance encode text target pos)).
Proof.
  intros encode text target Hne Hover.
  destruct (@boundary_search_outcome encode text target Hne Hover)
    as (approx & pos & score & Hfind & Hfob & Hpos & Hwin & Hcases).
  exists approx, pos, score. repeat (split; [assumption|]).
  destruct Hcases as [(H1 & H2 & _) | H]; [left; auto | right; exact H].
Qed.

Lemma find_optimal_boundary_lands_witness :
  exists approx pos score,
    find_token_boundary char_tokenizer sample_text 40 = Some approx
    /\ find_optimal_boundary char_tokenizer sample_text 40 = Some (pos, score)
    /\ 0 <= pos <= len sample_text
    /\ approx - Z.min 500 (len sample_text / 10) <= pos
         <= approx + Z.min 500 (len sample_text / 10)
    /\ ((score = 0.5%float /\ pos = approx)
        \/ (score = 1.0%float /\ ends_paragraph sample_text pos
            /\ within_tolerance char_tokenizer sample_text 40 pos)
        \/ (score = 0.8%float /\ ends_sentence sample_text pos
            /\ within_tolerance char_tokenizer sample_text 40 pos)
        \/ (score = 0.6%float /\ ends_line sample_text pos
            /\ within_tolerance char_tokenizer sample_text 40 pos)).
Proof.
  apply (@find_optimal_boundary_lands char_tokenizer sample_text 40).
  - discriminate.
  - vm_compute. reflexivity.
Defined.

(** X4: [find_optimal_boundary] gives the empty text the offset 0 and the
    score 0.0, and every other text one of the scores 0.5, 0.6, 0.8 and
    1.0. *)
Theorem find_optimal_boundary_score_values :
  forall encode text target,
    exists pos score,
      find_optimal_boundary encode text target = Some (pos, score)
      /\ (text = [] -> pos = 0 /\ score = 0.0%float)
      /\ (text <> [] ->
          score = 0.5%float \/ score = 0.6%float
          \/ score = 0.8%float \/ score = 1.0%float).
Proof.
  intros encode text target.
  destruct text as [|c text'] eqn:Htext.
  { exists 0, 0.0%float. split; [reflexivity|]. split; [auto | congruence]. }
  rewrite <- Htext.
  assert (Hne : text <> []) by (rewrite Htext; discriminate).
  destruct (Z_le_gt_dec (count_tokens encode text) target) as [Hfit | Hover].
  { exists (len text), 1.0%float.
    split; [apply find_optimal_boundary_whole; assumption|].
    split; [congruence | auto]. }
  destruct (@boundary_search_outcome encode text target Hne ltac:(lia))
    as (approx & pos & score & _ & Hfob & _ & _ & Hcases).
  exists pos, score. split; [exact Hfob|]. split; [congruence|]. intros _.
  destruct Hcases as [(H & _) | [(H & _) | [(H & _) | (H & _)]]]; auto.
Qed.

(** X5: for a text that is not empty and a positive budget,
    [create_overlap] returns the whole text exactly when the text has at
    most [overlap_tokens] tokens; otherwise it returns fewer characters
    than the text has. *)
Theorem create_overlap_whole_iff :
  forall encode text overlap,
    text <> [] -> 0 < overlap ->
    (create_overlap encode text overlap = Some text
       <-> count_tokens encode text <= overlap)
    /\ (overlap < count_tokens encode text ->
        exists x, create_overlap encode text overlap = Some x
                  /\ len x < len text).
Proof.
  intros encode text overlap Hne Hpos.
  assert (Hshort : overlap < count_tokens encode text ->
                   exists x, create_overlap encode text overlap = Some x
                             /\ len x < len text).
  { intros Hover.
    destruct (create_overlap_short encode Hne Hpos Hover) as (x & Hx & Hlen).
    exists x. split; [exact Hx | unfold len; lia]. }
  split; [|exact Hshort]. split.
  - intros Hwhole.
    destruct (Z_le_gt_dec (count_tokens encode text) overlap) as [H | H];
      [exact H|].
    destruct (Hshort ltac:(lia)) as (x & Hx & Hlen).
    rewrite Hwhole in Hx. injection Hx as <-. lia.
  - intros Hfit. unfold create_overlap, find_token_boundary.
    apply is_empty_false in Hne. rewrite Hne.
    replace (overlap <=? 0) with false by (symmetry; apply Z.leb_gt; lia).
    apply Z.leb_le in Hfit. rewrite Hfit. simpl orb. cbv iota.
    replace (len text >=? len text) with true
      by (symmetry; apply Z.geb_le; lia).
    reflexivity.
Qed.

Lemma create_overlap_whole_iff_witness :
  (create_overlap char_tokenizer (of_string "One. Two") 8
     = Some (of_string "One. Two")
     <-> count_tokens char_tokenizer (of_string "One. Two") <= 8)
  /\ (8 < count_tokens char_tokenizer (of_string "One. Two") ->
      exists x, create_overlap char_tokenizer (of_string "One. Two") 8 = Some x
                /\ len x < len (of_string "One. Two")).
Proof.
  apply (@create_overlap_whole_iff char_tokenizer (of_string "One. Two") 8).
  - discriminate.
  - lia.
Defined.

(** X7: at a position strictly inside the text, the two contexts recorded
    by [get_boundary_info] are the characters just before and just after
    the position: the text is a prefix, [before_context], [after_context]
    and a suffix, the position falls between the two contexts, and each
    has five characters or as many as the text has on that side.  At an
    edge position no context is recorded. *)
Theorem get_boundary_info_contexts :
  forall text position,
    (0 < position < len text ->
       exists pre before after post,
         bi_before_context (get_boundary_info text position) = Some before
         /\ bi_after_context (get_boundary_info text position) = Some after
         /\ text = pre ++ before ++ after ++ post
         /\ len pre + len before = position
         /\ len before = Z.min 5 position
         /\ len after = Z.min 5 (len text - position))
    /\ (position <= 0 \/ len text <= position ->
          bi_before_context (get_boundary_info text position) = None
          /\ bi_after_context (get_boundary_info text position) = None).
Proof.
  intros text position. unfold get_boundary_info. split.
  - intros Hpos.
    replace ((position <=? 0) || (position >=? len text)) with false.
    2:{ symmetry. apply orb_false_iff. split; [apply Z.leb_gt; lia|].
        rewrite Z.geb_leb. apply Z.leb_gt. lia. }
    set (a := Z.max 0 (position - 5)).
    set (b := Z.min (len text) (position + 5)).
    destruct (@slice_spec text a position ltac:(lia) ltac:(lia))
      as (Eb & Hlb & _).
    destruct (@slice_spec text position b ltac:(lia) ltac:(lia))
      as (Ea & Hla & _).
    exists (firstn (Z.to_nat a) text), (slice text a position),
      (slice text position b), (skipn (Z.to_nat b) text).
    split; [repeat match goal with
                   | |- context [if ?t then _ else _] => destruct t
                   end; reflexivity|].
    split; [repeat match goal with
                   | |- context [if ?t then _ else _] => destruct t
                   end; reflexivity|].
    split; [|split; [|split]].
    + rewrite Eb, Ea.
      rewrite <- (firstn_skipn (Z.to_nat a) text) at 1. f_equal.
      rewrite <- (firstn_skipn (Z.to_nat (position - a))
                    (skipn (Z.to_nat a) text)) at 1. f_equal.
      rewrite skipn_skipn.
      replace (Z.to_nat (position - a) + Z.to_nat a)%nat
        with (Z.to_nat position) by lia.
      rewrite <- (firstn_skipn (Z.to_nat (b - position))
                    (skipn (Z.to_nat position) text)) at 1. f_equal.
      rewrite skipn_skipn. f_equal. lia.
    + unfold len in *. rewrite Hlb, length_firstn. lia.
    + unfold len in *. rewrite Hlb. lia.
    + unfold len in *. rewrite Hla. lia.
  - intros Hedge.
    replace ((position <=? 0) || (position >=? len text)) with true;
      [split; reflexivity|].
    symmetry. apply orb_true_iff.
    destruct Hedge; [left; apply Z.leb_le | right; apply Z.geb_le]; lia.
Qed.

(** X8: [get_boundary_info] only reports the types "edge", "paragraph",
    "sentence", "line", "word" and "character", with a score in [0, 1];
    the type is "edge" exactly at the positions [<= 0] or [>= len(text)]. *)
Theorem get_boundary_info_types :
  forall text position,
    let info := get_boundary_info text position in
    In (bi_type info)
       ["edge"; "paragraph"; "sentence"; "line"; "word"; "character"]%string
    /\ score_in_range (bi_score info) = true
    /\ (bi_type info = "edge"%string
        <-> position <= 0 \/ len text <= position).
Proof.
  intros text position info. subst info. unfold get_boundary_info.
  destruct ((position <=? 0) || (position >=? len text)) eqn:Hedge.
  - split; [simpl; auto|]. split; [reflexivity|]. split; [|reflexivity].
    intros _. apply orb_true_iff in Hedge.
    destruct Hedge as [H | H]; [apply Z.leb_le in H | apply Z.geb_le in H];
      lia.
  - apply orb_false_iff in Hedge. destruct Hedge as [H0 H1].
    apply Z.leb_gt in H0. rewrite Z.geb_leb in H1. apply Z.leb_gt in H1.
    repeat match goal with
           | |- context [if ?t then _ else _] => destruct t
           end; cbn [bi_type bi_score];
      (split; [simpl; tauto|]); (split; [reflexivity|]);
      (split; [discriminate | intros; lia]).
Qed.

(** ** Chunk orchestrator *)

Section ChunkTextProperties.

Variable encode : str -> list Z.
Variable config : ChunkingConfig.

(** X9: the chunks returned by [chunk_text] carry the identifiers
    0, 1, 2, ... in the order of the list. *)
Theorem chunk_text_ids :
  forall text chunks,
    chunk_text encode config text = Some (Returned chunks) ->
    forall i c, nth_error chunks i = Some c -> chunk_id c = Z.of_nat i.
Proof.
  intros text chunks Hrun i c Hnth.
  destruct (chunk_text_run _ _ _ Hrun) as (_ & leftover & Hr & _).
  rewrite (run_ids Hr i Hnth). lia.
Qed.

(** X10: every chunk returned by [chunk_text] is consistent: its text is
    not empty and is already trimmed, its token count is that of its text
    and is positive, its end position is its start position plus the
    length of its text, its score is in [0, 1], and the [TextChunk]
    constructor accepts it. *)
Theorem chunk_text_chunks_consistent :
  forall input chunks,
    chunk_text encode config input = Some (Returned chunks) ->
    forall c, In c chunks ->
      text c <> [] /\ strip (text c) = text c
      /\ token_count c = count_tokens encode (text c)
      /\ 0 < token_count c
      /\ end_position c = start_position c + len (text c)
      /\ score_in_range (boundary_score c) = true
      /\ new_TextChunk c = Returned c.
Proof.
  intros input chunks Hrun c Hin.
  destruct (chunk_text_run _ _ _ Hrun) as (_ & leftover & Hr & _).
  destruct (run_chunks Hr c Hin)
    as (Hne & Hstrip & Htok & Hpos & Hend & Hscore & _).
  repeat (split; [assumption|]).
  apply new_TextChunk_valid; try assumption.
  - destruct (In_nth_error _ _ Hin) as (i & Hi).
    rewrite (run_ids Hr i Hi). lia.
  - rewrite Hstrip. exact Hne.
Qed.

(** X11: the overlap recorded in a chunk returned by [chunk_text] is
    between 0 and the length of the chunk's own text; it is 0 for the
    chunk of identifier 0, and for every chunk when the configured
    [overlap_tokens] is not positive. *)
Theorem chunk_text_overlap_bounds :
  forall input chunks,
    chunk_text encode config input = Some (Returned chunks) ->
    forall c, In c chunks ->
      0 <= overlap_with_previous c <= len (text c)
      /\ (chunk_id c = 0 -> overlap_with_previous c = 0)
      /\ (overlap_tokens config <= 0 -> overlap_with_previous c = 0).
Proof.
  intros input chunks Hrun c Hin.
  destruct (chunk_text_run _ _ _ Hrun) as (_ & leftover & Hr & _).
  destruct (run_chunks Hr c Hin) as (_ & _ & _ & _ & _ & _ & Hov & Hzero).
  split; [exact Hov|]. split; intros H; apply Hzero; lia.
Qed.

(** X12: the positions recorded by [chunk_text] advance through the
    input: the first chunk starts at 0, no chunk starts before the one in
    front of it ends, and every chunk lies between 0 and [len(text)]. *)
Theorem chunk_text_positions :
  forall input chunks,
    chunk_text encode config input = Some (Returned chunks) ->
    (forall c, hd_error chunks = Some c -> start_position c = 0)
    /\ (forall i c d, nth_error chunks i = Some c ->
          nth_error chunks (S i) = Some d ->
          end_position c <= start_position d)
    /\ (forall c, In c chunks ->
          0 <= start_position c /\ start_position c < end_position c
          /\ end_position c <= len input).
Proof.
  intros input chunks Hrun.
  destruct (chunk_text_run _ _ _ Hrun) as (_ & leftover & Hr & _).
  destruct (run_positions Hr) as (Hin & Hhd & Hnext).
  split; [exact Hhd|]. split; [exact Hnext|].
  intros c Hc. destruct (Hin c Hc) as [Hlo Hhi].
  destruct (run_chunks Hr c Hc) as (Hne & _ & _ & _ & Hend & _).
  assert (0 < len (text c))
    by (unfold len; destruct (text c); [congruence | simpl; lia]).
  lia.
Qed.

(** X13: the input of [chunk_text] is its returned chunks in order, each
    preceded by whitespace only, followed by a remainder: chunks are
    disjoint pieces of the input, cut in order, and only whitespace is
    left out between them.  In particular there are at most [len(text)]
    chunks. *)
Theorem chunk_text_interleaved :
  forall input chunks,
    chunk_text encode config input = Some (Returned chunks) ->
    (exists rest, interleaved (map text chunks) rest input)
    /\ (length (concat (map text chunks)) <= length input)%nat
    /\ (length chunks <= length input)%nat.
Proof.
  intros input chunks Hrun.
  destruct (chunk_text_run _ _ _ Hrun) as (_ & leftover & Hr & _).
  destruct (run_interleaved Hr) as (wa & wb & _ & _ & Hil).
  pose proof (interleaved_length Hil) as Hlen.
  split; [eauto|]. split; [lia|].
  assert (Hn : (length (map text chunks)
                <= length (concat (map text chunks)))%nat).
  { apply nonempty_parts_count. intros t Ht. apply in_map_iff in Ht.
    destruct Ht as (c & <- & Hc). apply (run_chunks Hr c Hc). }
  rewrite length_map in Hn. lia.
Qed.

(** X14: with a configuration accepted by the constructor and a tokenizer
    for which trimming a string adds no token, every chunk returned by
    [chunk_text] has at most [max_chunk_tokens - overlap_tokens + 50]
    tokens, hence at most [max_chunk_tokens] when [overlap_tokens >= 50]. *)
Theorem chunk_text_token_bound :
  forall m o name input chunks,
    new_ChunkingConfig m o name = Returned config ->
    trim_monotone encode ->
    chunk_text encode config input = Some (Returned chunks) ->
    forall c, In c chunks ->
      token_count c <= m - o + 50
      /\ (50 <= o -> token_count c <= m).
Proof.
  intros m o name input chunks Hconfig Htrim Hrun c Hin.
  destruct (new_ChunkingConfig_valid _ _ _ Hconfig) as (Hm & Ho & Hvalid).
  destruct (chunk_text_run _ _ _ Hrun) as (_ & leftover & Hr & _).
  assert (Htarget : get_effective_chunk_size config = m - o)
    by (unfold get_effective_chunk_size; lia).
  pose proof (@run_token_bound encode config Htrim ltac:(lia)
                _ _ _ _ _ Hr c Hin) as Hbound.
  lia.
Qed.

(** X15: with a tokenizer that gives tokens to every non-empty string,
    whose prefix token counts do not decrease, and for which every
    character that is not whitespace fits the effective chunk size,
    [chunk_text] on a text that is not blank and does not start with
    whitespace returns at least one chunk and reaches the end of the
    text: the text is the chunks in order, separated by whitespace only
    and followed by whitespace only; the first chunk is [FIRST], the last
    of several is [FINAL] and the others are [MIDDLE]. *)
Theorem chunk_text_covers_text :
  forall input,
    nonempty_tokens encode ->
    (forall s, prefix_monotone encode s) ->
    (forall c, isspace c = false ->
       count_tokens encode [c] <= get_effective_chunk_size config) ->
    lstrip input = input ->
    is_empty (strip input) = false ->
    exists chunks tail,
      chunk_text encode config input = Some (Returned chunks)
      /\ chunks <> []
      /\ forallb isspace tail = true
      /\ interleaved (map text chunks) tail input
      /\ forall i c, nth_error chunks i = Some c ->
           chunk_type c
           = if Nat.eqb i 0 then FIRST
             else if Nat.eqb (S i) (length chunks) then FINAL else MIDDLE.
Proof.
  intros input Htok Hmono Hchar Hfix Hblank.
  destruct (@chunk_text_returns encode config input Htok Hblank)
    as (chunks & Hrun).
  destruct (chunk_text_run _ _ _ Hrun) as (_ & leftover & Hr & Hstop).
  pose proof (@run_reaches_end encode config Hmono Hchar _ _ _ _ _ Hr
                Hfix Hstop) as Hend.
  destruct (run_interleaved Hr) as (wa & wb & Hwa & Hwb & Hil).
  exists chunks, (wa ++ leftover ++ wb).
  split; [exact Hrun|]. split; [|split; [|split; [exact Hil|]]].
  - intros ->. inversion Hr; subst. congruence.
  - apply is_blank_iff in Hend. rewrite !forallb_app, Hwa, Hwb, Hend.
    reflexivity.
  - intros i c Hnth.
    rewrite (@run_kinds_at_end _ _ _ _ _ _ _ Hr (Z.le_refl 0) Hend i c Hnth).
    destruct i; reflexivity.
Qed.

End ChunkTextProperties.

Lemma chunk_text_ids_witness :
  exists c, nth_error sample_chunks 3 = Some c /\ chunk_id c = Z.of_nat 3.
Proof.
  eexists. split; [vm_compute; reflexivity|].
  apply (@chunk_text_ids char_tokenizer sample_config sample_text
           sample_chunks).
  - vm_compute. reflexivity.
  - vm_compute. reflexivity.
Defined.

Lemma chunk_text_chunks_consistent_witness :
  Forall (fun c =>
            text c <> [] /\ strip (text c) = text c
            /\ token_count c = count_tokens char_tokenizer (text c)
            /\ 0 < token_count c
            /\ end_position c = start_position c + len (text c)
            /\ score_in_range (boundary_score c) = true
            /\ new_TextChunk c = Returned c) sample_chunks.
Proof.
  apply Forall_forall.
  apply (@chunk_text_chunks_consistent char_tokenizer sample_config
           sample_text).
  vm_compute. reflexivity.
Defined.

Lemma chunk_text_overlap_bounds_witness :
  Forall (fun c =>
            0 <= overlap_with_previous c <= len (text c)
            /\ (chunk_id c = 0 -> overlap_with_previous c = 0)
            /\ (overlap_tokens sample_config <= 0 ->
                overlap_with_previous c = 0)) sample_chunks.
Proof.
  apply Forall_forall.
  apply (@chunk_text_overlap_bounds char_tokenizer sample_config sample_text).
  vm_compute. reflexivity.
Defined.

Lemma chunk_text_positions_witness :
  (forall c, hd_error sample_chunks = Some c -> start_position c = 0)
  /\ (forall i c d, nth_error sample_chunks i = Some c ->
        nth_error sample_chunks (S i) = Some d ->
        end_position c <= start_position d)
  /\ (forall c, In c sample_chunks ->
        0 <= start_position c /\ start_position c < end_position c
        /\ end_position c <= len sample_text).
Proof.
  apply (@chunk_text_positions char_tokenizer sample_config sample_text).
  vm_compute. reflexivity.
Defined.

Lemma chunk_text_interleaved_witness :
  (exists rest, interleaved (map text sample_chunks) rest sample_text)
  /\ (length (concat (map text sample_chunks)) <= length sample_text)%nat
  /\ (length sample_chunks <= length sample_text)%nat.
Proof.
  apply (@chunk_text_interleaved char_tokenizer sample_config sample_text).
  vm_compute. reflexivity.
Defined.

Lemma chunk_text_token_bound_witness :
  Forall (fun c =>
            token_count c <= 20 - 4 + 50 /\ (50 <= 4 -> token_count c <= 20))
         sample_chunks.
Proof.
  apply Forall_forall.
  apply (@chunk_text_token_bound char_tokenizer sample_config 20 4
           "cl100k_base" sample_text).
  - reflexivity.
  - apply trim_monotone_char_tokenizer.
  - vm_compute. reflexivity.
Defined.

Lemma chunk_text_covers_text_witness :
  exists chunks tail,
    chunk_text char_tokenizer sample_config sample_text
      = Some (Returned chunks)
    /\ chunks <> []
    /\ forallb isspace tail = true
    /\ interleaved (map text chunks) tail sample_text
    /\ forall i c, nth_error chunks i = Some c ->
         chunk_type c
         = if Nat.eqb i 0 then FIRST
           else if Nat.eqb (S i) (length chunks) then FINAL else MIDDLE.
Proof.
  apply (@chunk_text_covers_text char_tokenizer sample_config sample_text).
  - apply nonempty_tokens_char_tokenizer.
  - apply prefix_monotone_char_tokenizer.
  - intros c _. vm_compute. discriminate.
  - vm_compute. reflexivity.
  - vm_compute. reflexivity.
Defined.

(** ** Validation *)

(** X16: [validate_chunks] returns no issue exactly when every chunk has
    at most [max_chunk_tokens] tokens and a text that is not blank, the
    first chunk is [FIRST], and the last chunk of a sequence of more than
    one chunk is [FINAL]. *)
Theorem validate_chunks_empty_iff :
  forall config chunks,
    validate_chunks config chunks = []
    <-> (forall c, In c chunks ->
           token_count c <= max_chunk_tokens config
           /\ strip (text c) <> [])
        /\ (forall c, nth_error chunks 0 = Some c -> chunk_type c = FIRST)
        /\ ((1 < length chunks)%nat ->
            forall c, nth_error chunks (length chunks - 1) = Some c ->
              chunk_type c = FINAL).
Proof.
  intros config chunks. split.
  - intros Hnil.
    assert (Hnone : forall i c x, nth_error chunks i = Some c ->
                      ~ In x (validate_chunk config (length chunks) i c)).
    { intros i c x Hnth Hx.
      assert (Hin : In x (validate_chunks config chunks))
        by (apply in_validate_chunks; eauto).
      rewrite Hnil in Hin. exact Hin. }
    split; [|split].
    + intros c Hc. destruct (In_nth_error _ _ Hc) as (i & Hi). split.
      * destruct (Z_le_gt_dec (token_count c) (max_chunk_tokens config))
          as [H | H]; [exact H|]. exfalso.
        eapply (Hnone i c); [exact Hi|]. apply in_validate_chunk. left.
        split; [reflexivity | lia].
      * intros Hblank. eapply (Hnone i c); [exact Hi|]. apply in_validate_chunk.
        right. right. right. split; [reflexivity | exact Hblank].
    + intros c Hc. destruct (chunk_type c) eqn:E; try reflexivity; exfalso;
        (eapply (Hnone O c); [exact Hc|]); apply in_validate_chunk; right; left;
        (split; [reflexivity|]); split; congruence.
    + intros Hn c Hc. destruct (chunk_type c) eqn:E; try reflexivity; exfalso;
        (eapply (Hnone _ c); [exact Hc|]); apply in_validate_chunk; right; right; left;
        (split; [reflexivity|]); (split; [reflexivity|]); split;
        congruence || exact Hn.
  - intros (Hall & Hfirst & Hlast).
    apply validate_chunks_no_issue; assumption.
Qed.

(** X17: [validate_chunks] reports a chunk over the token limit exactly
    for the indices of the chunks with more than [max_chunk_tokens]
    tokens, with the index, the token count and the limit. *)
Theorem validate_chunks_exceeds_iff :
  forall config chunks i t m,
    In (ExceedsTokenLimit i t m) (validate_chunks config chunks)
    <-> exists c, nth_error chunks i = Some c
          /\ t = token_count c /\ m = max_chunk_tokens config
          /\ max_chunk_tokens config < token_count c.
Proof.
  intros config chunks i t m. rewrite in_validate_chunks. split.
  - intros (j & c & Hnth & Hx). apply in_validate_chunk in Hx.
    destruct Hx as [([= -> -> ->] & H) | [(E & _) | [(E & _) | (E & _)]]];
      try discriminate E.
    exists c. auto.
  - intros (c & Hnth & -> & -> & H). exists i, c. split; [exact Hnth|].
    apply in_validate_chunk. left. split; [reflexivity | exact H].
Qed.

(** X18: on a sequence returned by [chunk_text], [validate_chunks] never
    reports a first chunk that is not [FIRST] nor an empty text: every
    issue is a chunk over the token limit or a last chunk left [MIDDLE]. *)
Theorem validate_chunks_of_chunk_text :
  forall encode config input chunks,
    chunk_text encode config input = Some (Returned chunks) ->
    forall x, In x (validate_chunks config chunks) ->
      (exists i t, x = ExceedsTokenLimit i t (max_chunk_tokens config)
                   /\ max_chunk_tokens config < t)
      \/ x = LastNotFINAL MIDDLE.
Proof.
  intros encode config input chunks Hrun x Hx.
  destruct (chunk_text_run _ _ _ Hrun) as (_ & leftover & Hr & _).
  apply in_validate_chunks in Hx. destruct Hx as (i & c & Hnth & Hx).
  apply in_validate_chunk in Hx.
  pose proof (nth_error_In _ _ Hnth) as Hc.
  destruct (run_chunks Hr c Hc) as (Hne & Hstrip & _).
  pose proof (@run_first_kind _ _ _ _ _ _ _ Hr (Z.le_refl 0) i c Hnth)
    as Hfirst.
  destruct Hx as [(-> & H) | [(_ & -> & H) | [(-> & E & H & Hn) | (_ & H)]]].
  - left. eauto.
  - exfalso. apply H. apply Hfirst. reflexivity.
  - right. f_equal.
    destruct (chunk_type c); [|reflexivity | congruence].
    assert (0 + Z.of_nat i = 0) by (apply Hfirst; reflexivity). lia.
  - congruence.
Qed.

Lemma validate_chunks_of_chunk_text_witness :
  Forall (fun x =>
            (exists i t,
               x = ExceedsTokenLimit i t (max_chunk_tokens (cfg 10 0))
               /\ max_chunk_tokens (cfg 10 0) < t)
            \/ x = LastNotFINAL MIDDLE)
         (validate_chunks (cfg 10 0)
            (returned_chunks
               (chunk_text char_tokenizer (cfg 10 0)
                  (of_string "aaaaaaaaaaa. bbbbbbbbbbbbbbbbb")))).
Proof.
  apply Forall_forall.
  apply (@validate_chunks_of_chunk_text char_tokenizer (cfg 10 0)
           (of_string "aaaaaaaaaaa. bbbbbbbbbbbbbbbbb")).
  vm_compute. reflexivity.
Defined.

(** ** Reconstruction *)

(** X19: [combine_chunks] does not depend on the order in which the
    chunks of a [chunk_text] result are passed: for every rearrangement
    of the returned list it gives the chunk texts in the order of
    emission, joined by single spaces. *)
Theorem combine_chunks_order_independent :
  forall encode config input chunks l,
    chunk_text encode config input = Some (Returned chunks) ->
    Permutation l chunks ->
    combine_chunks l = join [SPACE] (map text chunks).
Proof.
  intros encode config input chunks l Hrun Hperm.
  destruct (chunk_text_run _ _ _ Hrun) as (_ & leftover & Hr & _).
  assert (Hsorted : sorted_by_id l = chunks).
  { apply sorted_unique.
    - apply (increasing_ids_sorted chunks 0). intros i c Hnth.
      rewrite (run_ids Hr i Hnth). reflexivity.
    - apply sorted_by_id_sorted.
    - rewrite sorted_by_id_perm. exact Hperm. }
  unfold combine_chunks. destruct l as [|c l'] eqn:El.
  - apply Permutation_nil in Hperm. subst chunks. reflexivity.
  - rewrite Hsorted. reflexivity.
Qed.

Lemma combine_chunks_order_independent_witness :
  combine_chunks (rev sample_chunks) = join [SPACE] (map text sample_chunks).
Proof.
  apply (@combine_chunks_order_independent char_tokenizer sample_config
           sample_text).
  - vm_compute. reflexivity.
  - symmetry. apply Permutation_rev.
Defined.

(** ** Configuration and budget *)

(** X20: for a configuration accepted by the constructor, the effective
    chunk size is [max_chunk_tokens - overlap_tokens], at least 1 and at
    most [max_chunk_tokens]. *)
Theorem effective_chunk_size_bounds :
  forall m o name config,
    new_ChunkingConfig m o name = Returned config ->
    get_effective_chunk_size config = m - o
    /\ 1 <= get_effective_chunk_size config <= max_chunk_tokens config.
Proof.
  intros m o name config Hconfig.
  destruct (new_ChunkingConfig_valid _ _ _ Hconfig) as (Hm & Ho & Hvalid).
  unfold get_effective_chunk_size. lia.
Qed.

Lemma effective_chunk_size_bounds_witness :
  get_effective_chunk_size sample_config = 20 - 4
  /\ 1 <= get_effective_chunk_size sample_config
       <= max_chunk_tokens sample_config.
Proof.
  apply (@effective_chunk_size_bounds 20 4 "cl100k_base" sample_config).
  reflexivity.
Defined.

(** ** From the input to a validated sequence *)

(** X21: with a configuration accepted by the constructor whose
    [overlap_tokens] is at least 50, and a tokenizer that gives tokens to
    every non-empty string, whose prefix token counts do not decrease, for
    which trimming adds no token and every character that is not
    whitespace fits the effective chunk size, [chunk_text] on a text that
    is not blank and does not start with whitespace returns a sequence
    on which [validate_chunks] reports no issue. *)
Theorem chunk_text_validates :
  forall encode m o name config input,
    new_ChunkingConfig m o name = Returned config ->
    50 <= o ->
    nonempty_tokens encode ->
    (forall s, prefix_monotone encode s) ->
    trim_monotone encode ->
    (forall c, isspace c = false -> count_tokens encode [c] <= m - o) ->
    lstrip input = input ->
    is_empty (strip input) = false ->
    exists chunks,
      chunk_text encode config input = Some (Returned chunks)
      /\ validate_chunks config chunks = [].
Proof.
  intros encode m o name config input Hconfig Ho Htok Hmono Htrim Hchar
    Hfix Hblank.
  destruct (new_ChunkingConfig_valid _ _ _ Hconfig) as (Hm & Hov & Hvalid).
  assert (Htarget : get_effective_chunk_size config = m - o)
    by (unfold get_effective_chunk_size; lia).
  destruct (@chunk_text_returns encode config input Htok Hblank)
    as (chunks & Hrun).
  exists chunks. split; [exact Hrun|].
  destruct (chunk_text_run _ _ _ Hrun) as (_ & leftover & Hr & Hstop).
  assert (Hchar' : forall c, isspace c = false ->
            count_tokens encode [c] <= get_effective_chunk_size config)
    by (intros c Hc; rewrite Htarget; apply Hchar; exact Hc).
  pose proof (@run_reaches_end encode config Hmono Hchar' _ _ _ _ _ Hr
                Hfix Hstop) as Hend.
  pose proof (@run_kinds_at_end _ _ _ _ _ _ _ Hr (Z.le_refl 0) Hend)
    as Hkinds.
  apply validate_chunks_no_issue.
  - intros c Hc. split.
    + pose proof (@run_token_bound encode config Htrim ltac:(lia)
                    _ _ _ _ _ Hr c Hc). lia.
    + destruct (run_chunks Hr c Hc) as (Hne & Hstrip & _). congruence.
  - intros c Hc. rewrite (Hkinds O c Hc). reflexivity.
  - intros Hn c Hc. rewrite (Hkinds _ c Hc).
    replace (0 + Z.of_nat (length chunks - 1) =? 0) with false
      by (symmetry; apply Z.eqb_neq; lia).
    replace (S (length chunks - 1)) with (length chunks) by lia.
    rewrite Nat.eqb_refl. reflexivity.
Qed.

Lemma chunk_text_validates_witness :
  exists chunks,
    chunk_text char_tokenizer (cfg 100 50) sample_text
      = Some (Returned chunks)
    /\ validate_chunks (cfg 100 50) chunks = [].
Proof.
  apply (@chunk_text_validates char_tokenizer 100 50 "cl100k_base"
           (cfg 100 50) sample_text).
  - reflexivity.
  - lia.
  - apply nonempty_tokens_char_tokenizer.
  - apply prefix_monotone_char_tokenizer.
  - apply trim_monotone_char_tokenizer.
  - intros c _. vm_compute. discriminate.
  - vm_compute. reflexivity.
  - vm_compute. reflexivity.
Defined.

(** X22: a [FINAL] chunk in a sequence returned by [chunk_text] means
    that the whole input was chunked: the input is the chunks in order,
    separated by whitespace only and followed by whitespace only. *)
Theorem final_chunk_covers_text :
  forall encode config input chunks,
    chunk_text encode config input = Some (Returned chunks) ->
    (exists c, In c chunks /\ chunk_type c = FINAL) ->
    exists tail,
      forallb isspace tail = true
      /\ interleaved (map text chunks) tail input.
Proof.
  intros encode config input chunks Hrun Hfinal.
  destruct (chunk_text_run _ _ _ Hrun) as (_ & leftover & Hr & _).
  pose proof (run_final_reaches_end Hr Hfinal) as Hend.
  destruct (run_interleaved Hr) as (wa & wb & Hwa & Hwb & Hil).
  exists (wa ++ leftover ++ wb). split; [|exact Hil].
  apply is_blank_iff in Hend. rewrite !forallb_app, Hwa, Hwb, Hend.
  reflexivity.
Qed.

Lemma final_chunk_covers_text_witness :
  exists tail,
    forallb isspace tail = true
    /\ interleaved (map text sample_chunks) tail sample_text.
Proof.
  apply (@final_chunk_covers_text char_tokenizer sample_config sample_text).
  - vm_compute. reflexivity.
  - vm_compute. eexists. split; [do 5 right; left; reflexivity | reflexivity].
Defined.

(** X23: [combine_chunks] applied to the result of [chunk_text] gives
    back the input up to whitespace: the characters of the input that are
    not whitespace start with those of the combined text, in the same
    order, and are exactly those when a chunk is [FINAL]. *)
Theorem combine_chunks_keeps_content :
  forall encode config input chunks,
    chunk_text encode config input = Some (Returned chunks) ->
    exists rest,
      non_space input = non_space (combine_chunks chunks) ++ rest
      /\ ((exists c, In c chunks /\ chunk_type c = FINAL) -> rest = []).
Proof.
  intros encode config input chunks Hrun.
  destruct (chunk_text_run _ _ _ Hrun) as (_ & leftover & Hr & _).
  destruct (run_interleaved Hr) as (wa & wb & Hwa & Hwb & Hil).
  exists (non_space leftover). split.
  - rewrite combine_chunks_in_order, non_space_join.
    + rewrite (non_space_interleaved Hil), !non_space_app.
      rewrite (non_space_blank _ Hwa), (non_space_blank _ Hwb), app_nil_r.
      reflexivity.
    + intros i c Hnth. rewrite (run_ids Hr i Hnth). lia.
  - intros Hfinal. apply non_space_blank. apply is_blank_iff.
    apply (run_final_reaches_end Hr Hfinal).
Qed.

Lemma combine_chunks_keeps_content_witness :
  exists rest,
    non_space sample_text = non_space (combine_chunks sample_chunks) ++ rest
    /\ ((exists c, In c sample_chunks /\ chunk_type c = FINAL) -> rest = []).
Proof.
  apply (@combine_chunks_keeps_content char_tokenizer sample_config
           sample_text).
  vm_compute. reflexivity.
Defined.

(** * Chunk kinds of a returned sequence *)

Lemma lstrip_fixed_nonspace :
  forall p, p <> [] -> lstrip p = p ->
    exists c t, p = c :: t /\ isspace c = false.
Proof.
  intros [|c t] Hne Hfix; [congruence|].
  exists c, t. split; [reflexivity|].
  destruct (isspace c) eqn:Hc; [|reflexivity].
  simpl in Hfix. rewrite Hc in Hfix.
  pose proof (length_lstrip t) as Hlen. rewrite Hfix in Hlen.
  simpl in Hlen. lia.
Qed.

(** Whitespace in front of a part that starts with another character is
    what [lstrip] removes. *)
Lemma lstrip_gap :
  forall ws p s,
    forallb isspace ws = true -> p <> [] -> lstrip p = p ->
    lstrip (ws ++ p ++ s) = p ++ s.
Proof.
  intros ws p s Hws Hne Hfix.
  destruct (@lstrip_fixed_nonspace p Hne Hfix) as (c & t & -> & Hc).
  induction ws as [|w ws IH]; simpl.
  - rewrite Hc. reflexivity.
  - simpl in Hws. apply andb_true_iff in Hws. destruct Hws as [Hw Hws].
    rewrite Hw. apply IH. exact Hws.
Qed.

(** The parts being trimmed and not empty, what follows them in a string
    is determined. *)
Lemma interleaved_rest_unique :
  forall parts r1 r2 s,
    (forall p, In p parts -> p <> [] /\ lstrip p = p) ->
    interleaved parts r1 s -> interleaved parts r2 s -> r1 = r2.
Proof.
  induction parts as [|p parts IH]; intros r1 r2 s Hparts H1 H2.
  - inversion H1; inversion H2; congruence.
  - inversion H1 as [|ws1 c1 cs1 rest1 s1 Hws1 Hs1]; subst.
    inversion H2 as [|ws2 c2 cs2 rest2 s2 Hws2 Hs2 E]; subst.
    destruct (Hparts p (or_introl eq_refl)) as [Hne Hfix].
    assert (Es : s1 = s2).
    { apply (app_inv_head p).
      rewrite <- (@lstrip_gap ws1 p s1 Hws1 Hne Hfix).
      rewrite <- (@lstrip_gap ws2 p s2 Hws2 Hne Hfix).
      congruence. }
    subst s2. apply (IH r1 r2 s1); try assumption.
    intros q Hq. apply Hparts. right. exact Hq.
Qed.

Lemma count_kind_cons :
  forall k c l,
    count_kind k (c :: l)
    = ((if ChunkType_eqb (chunk_type c) k then 1 else 0) + count_kind k l)%nat.
Proof.
  intros k c l. unfold count_kind. simpl.
  destruct (ChunkType_eqb (chunk_type c) k); reflexivity.
Qed.

(** The counts of a tail that a [FINAL] chunk closes. *)
Lemma tail_kinds_closed :
  forall l, tail_kinds l ->
    (exists c, nth_error l (length l - 1) = Some c /\ chunk_type c = FINAL) ->
    count_kind FINAL l = 1%nat
    /\ count_kind MIDDLE l = (length l - 1)%nat.
Proof.
  intros l H. induction H as [|c Hc|c l Hc H IH]; intros (d & Hd & Hfinal).
  - discriminate.
  - rewrite !count_kind_cons, Hc. split; reflexivity.
  - destruct l as [|e l].
    + simpl in Hd. injection Hd as <-. congruence.
    + destruct IH as [IHf IHm].
      { exists d. split; [|exact Hfinal].
        simpl in Hd. simpl. rewrite Nat.sub_0_r in *. exact Hd. }
      rewrite (count_kind_cons FINAL c), (count_kind_cons MIDDLE c), Hc.
      rewrite IHf, IHm. simpl. split; [reflexivity | lia].
Qed.

(** The kinds of a run that stopped with nothing but whitespace left are
    those the specification words. *)
Lemma kinds_at_end_as_specified :
  forall encode config input chunks leftover,
    chunk_text encode config input = Some (Returned chunks) ->
    run encode config input 0 0 chunks leftover ->
    is_empty (strip leftover) = true ->
    chunks <> [] ->
    kinds_as_specified chunks.
Proof.
  intros encode config input chunks leftover Hrun Hr Hend Hne.
  pose proof (@run_kinds_at_end _ _ _ _ _ _ _ Hr (Z.le_refl 0) Hend)
    as Hkinds.
  unfold chunk_text in Hrun.
  destruct (is_empty (strip input)); [discriminate|].
  destruct (chunk_loop_outcome encode config [] input 0 (le_n _)
              (Z.le_refl _)) as (o & Hrun' & Hret & _ & _).
  rewrite Hrun in Hrun'. injection Hrun' as <-.
  destruct (Hret chunks eq_refl) as (more & Hmore & Hshape).
  simpl in Hmore. subst more. unfold kinds_from in Hshape. simpl in Hshape.
  destruct Hshape as [-> | (c & rest & -> & Hc & Hrest)]; [congruence|].
  assert (Hfirst : count_kind FIRST (c :: rest) = 1%nat).
  { unfold count_kind. simpl. rewrite Hc. simpl.
    f_equal. apply (tail_kinds_no_first Hrest). }
  split; [exact Hfirst|].
  split; [exists c; split; [reflexivity | exact Hc]|].
  split.
  - intros Hn. cbn [length] in Hn.
    assert (Hlast : exists d,
               nth_error rest (length rest - 1) = Some d
               /\ chunk_type d = FINAL).
    { destruct (nth_error rest (length rest - 1)) as [d|] eqn:Hd.
      - exists d. split; [reflexivity|].
        assert (Hd' : nth_error (c :: rest) (S (length rest - 1)) = Some d)
          by exact Hd.
        rewrite (Hkinds _ d Hd'). cbn [length].
        replace (S (S (length rest - 1))) with (S (length rest)) by lia.
        rewrite Nat.eqb_refl.
        replace (0 + Z.of_nat (S (length rest - 1)) =? 0) with false
          by (symmetry; apply Z.eqb_neq; lia).
        reflexivity.
      - apply nth_error_None in Hd. lia. }
    destruct (tail_kinds_closed Hrest Hlast) as [Hf Hm].
    split; [|split].
    + unfold count_kind in *. cbn [filter]. rewrite Hc. exact Hf.
    + destruct Hlast as (d & Hd & Hfinal). exists d.
      split; [|exact Hfinal]. cbn [length].
      replace (S (length rest) - 1)%nat with (S (length rest - 1)) by lia.
      exact Hd.
    + unfold count_kind in *. cbn [filter length]. rewrite Hc.
      cbn [ChunkType_eqb]. rewrite Hm. lia.
  - intros Hlen. destruct rest; [|discriminate].
    exists c. split; [reflexivity | exact Hc].
Qed.

(** C5, as amended: a sequence returned by [chunk_text] may be empty; in a
    non-empty one exactly one chunk is [FIRST] and it is the first emitted,
    every chunk strictly between the first and the last is [MIDDLE], a
    [FINAL] chunk can only be the last chunk of a sequence with more than
    one chunk, and a single chunk is [FIRST].  When the loop stopped with
    nothing but whitespace left of the text (equivalently, when only
    whitespace follows the last chunk in the input), the kinds are those
    specified: with more than one chunk, exactly one is [FINAL], it is the
    last emitted, and all the others but the first are [MIDDLE]. *)
Theorem chunk_text_kinds :
  forall encode config input chunks,
    chunk_text encode config input = Some (Returned chunks) ->
    chunks <> [] ->
    count_kind FIRST chunks = 1%nat
    /\ (exists c, hd_error chunks = Some c /\ chunk_type c = FIRST)
    /\ (forall i c, nth_error chunks i = Some c ->
          (0 < i)%nat -> (S i < length chunks)%nat -> chunk_type c = MIDDLE)
    /\ (forall i c, nth_error chunks i = Some c -> chunk_type c = FINAL ->
          S i = length chunks /\ (1 < length chunks)%nat)
    /\ (length chunks = 1%nat ->
        exists c, chunks = [c] /\ chunk_type c = FIRST)
    /\ (exists leftover,
          run encode config input 0 0 chunks leftover
          /\ stops encode config leftover
          /\ (is_empty (strip leftover) = true -> kinds_as_specified chunks))
    /\ (forall tail,
          forallb isspace tail = true ->
          interleaved (map text chunks) tail input ->
          kinds_as_specified chunks).
Proof.
  intros encode config input chunks Hrun Hne.
  destruct (chunk_text_run _ _ _ Hrun) as (Hblank & leftover & Hr & Hstop).
  assert (Hgen :
    count_kind FIRST chunks = 1%nat
    /\ (exists c, hd_error chunks = Some c /\ chunk_type c = FIRST)
    /\ (forall i c, nth_error chunks i = Some c ->
          (0 < i)%nat -> (S i < length chunks)%nat -> chunk_type c = MIDDLE)
    /\ (forall i c, nth_error chunks i = Some c -> chunk_type c = FINAL ->
          S i = length chunks /\ (1 < length chunks)%nat)
    /\ (length chunks = 1%nat ->
        exists c, chunks = [c] /\ chunk_type c = FIRST)).
  { pose proof Hrun as Hrun0. unfold chunk_text in Hrun0.
    rewrite Hblank in Hrun0.
    destruct (chunk_loop_outcome encode config [] input 0 (le_n _)
                (Z.le_refl _)) as (o & Hrun' & Hret & _ & _).
    rewrite Hrun0 in Hrun'. injection Hrun' as <-.
    destruct (Hret chunks eq_refl) as (more & Hmore & Hkinds).
    simpl in Hmore. subst more. unfold kinds_from in Hkinds.
    simpl in Hkinds.
    destruct Hkinds as [-> | (c & rest & -> & Hc & Hrest)]; [congruence|].
    split; [|split; [|split; [|split]]].
    - unfold count_kind. simpl. rewrite Hc. simpl.
      f_equal. apply (tail_kinds_no_first Hrest).
    - exists c. split; [reflexivity | exact Hc].
    - intros i c' Hnth Hi Hlt. destruct i as [|i]; [lia|].
      simpl in Hnth, Hlt. apply (tail_kinds_nth Hrest _ Hnth). lia.
    - intros i c' Hnth Hfin. destruct i as [|i].
      + injection Hnth as <-. congruence.
      + simpl in Hnth. destruct (tail_kinds_nth Hrest _ Hnth) as [_ Hlast].
        simpl. rewrite <- (Hlast Hfin). split; [reflexivity | lia].
    - intros Hlen. destruct rest; [|discriminate].
      exists c. split; [reflexivity | exact Hc]. }
  destruct Hgen as (H1 & H2 & H3 & H4 & H5).
  repeat (split; [assumption|]). split.
  - exists leftover. split; [exact Hr|]. split; [exact Hstop|].
    intros Hend.
    apply (@kinds_at_end_as_specified encode config input chunks leftover);
      assumption.
  - intros tail Htail Hcover.
    destruct (run_interleaved Hr) as (wa & wb & Hwa & Hwb & Hil).
    assert (E : wa ++ leftover ++ wb = tail).
    { apply (@interleaved_rest_unique (map text chunks) _ _ input);
        [|exact Hil | exact Hcover].
      intros p Hp. apply in_map_iff in Hp. destruct Hp as (c & <- & Hc).
      destruct (run_chunks Hr c Hc) as (Hnonempty & Hstrip & _).
      split; [exact Hnonempty|]. rewrite <- Hstrip. apply lstrip_strip. }
    apply (@kinds_at_end_as_specified encode config input chunks leftover);
      try assumption.
    apply is_blank_iff. rewrite <- E, !forallb_app in Htail.
    apply andb_true_iff in Htail. destruct Htail as [_ Htail].
    apply andb_true_iff in Htail. destruct Htail as [Htail _]. exact Htail.
Qed.

Lemma chunk_text_kinds_witness :
  exists chunks,
    chunk_text char_tokenizer (cfg 10 5) (of_string "aaaaaaaa")
      = Some (Returned chunks)
    /\ count_kind FIRST chunks = 1%nat
    /\ (forall i c, nth_error chunks i = Some c -> chunk_type c = FINAL ->
          S i = length chunks /\ (1 < length chunks)%nat)
    /\ kinds_as_specified chunks.
Proof.
  eexists. split; [vm_compute; reflexivity|].
  match goal with
  | |- count_kind FIRST ?l = _ /\ _ =>
      destruct (@chunk_text_kinds char_tokenizer (cfg 10 5)
                  (of_string "aaaaaaaa") l)
        as (H1 & _ & _ & H4 & _ & _ & Hcover)
  end.
  - vm_compute. reflexivity.
  - discriminate.
  - split; [exact H1|]. split; [exact H4|].
    apply (Hcover []); [reflexivity|].
    apply (@interleaved_cons [] (of_string "aaaaa") [of_string "aaa"] []
             (of_string "aaa") eq_refl).
    apply (@interleaved_cons [] (of_string "aaa") [] [] [] eq_refl).
    constructor.
Defined.
